(** * Sudoku-Solver: a shallow embedding of [Sudoko.py]

    The Python module is embedded function by function.  Python integers
    are unbounded, so they are [Z]; lists are [list]; a one-character
    string is its Unicode code point.  Exceptions are values of [result]. *)

From Stdlib Require Import ZArith Lia Bool List Sorted.
From Stdlib Require String Ascii DecimalPos.
From stdpp Require Import base numbers list.

Import String.StringSyntax.
Delimit Scope string_scope with string.

Local Open Scope Z_scope.

(** ** Exceptions *)

Inductive exn : Type :=
| ValueError
| AssertionError
| IndexError.

Inductive result (A : Type) : Type :=
| Ok (a : A)
| Raise (e : exn).

Arguments Ok {A} a.
Arguments Raise {A} e.

#[global] Instance result_ret : MRet result := fun A a => Ok a.

#[global] Instance result_bind : MBind result := fun A B f m =>
  match m with
  | Ok a => f a
  | Raise e => Raise e
  end.

(** ** Python primitives used by the module *)

(** Truth value of an integer in a condition. *)
Definition truthy (z : Z) : bool := negb (z =? 0).

(** [divmod(a, b)] for a positive [b]: floor division and its remainder. *)
Definition divmod (a b : Z) : Z * Z := (a / b, a mod b).

(** [l[i]]: negative indices count from the end, anything outside
    the list raises [IndexError]. *)
Definition py_index {A} (l : list A) (i : Z) : result nat :=
  let n := Z.of_nat (length l) in
  let j := if i <? 0 then i + n else i in
  if (0 <=? j) && (j <? n) then Ok (Z.to_nat j) else Raise IndexError.

Definition getitem (l : list Z) (i : Z) : result Z :=
  k ← py_index l i;
  match l !! k with
  | Some x => Ok x
  | None => Raise IndexError
  end.

(** [l[i] = x] on a private copy of [l]. *)
Definition setitem (l : list Z) (i : Z) (x : Z) : result (list Z) :=
  k ← py_index l i;
  Ok (<[k := x]> l).

(** [int.bit_count()]: the number of ones in the binary expansion of the
    absolute value. *)
Fixpoint pos_bit_count (p : positive) : Z :=
  match p with
  | xH => 1
  | xO p' => pos_bit_count p'
  | xI p' => 1 + pos_bit_count p'
  end.

Definition bit_count (z : Z) : Z :=
  match z with
  | Z0 => 0
  | Zpos p => pos_bit_count p
  | Zneg p => pos_bit_count p
  end.

(** *** Characters

    A Python [str] is a sequence of Unicode code points.  [str.isdigit]
    and [int] are built-ins of the interpreter; their tables below are
    those of Unicode 14.0 (CPython 3.11).  Every block of decimal digits
    is ten consecutive code points of values 0 to 9, so the table of
    decimal digits lists the code point of each zero. *)

Definition char : Type := Z.
Definition str : Type := list char.

Definition decimal_zeros : list Z :=
  [ 0x30; 0x660; 0x6f0; 0x7c0; 0x966; 0x9e6; 0xa66; 0xae6; 0xb66; 0xbe6;
    0xc66; 0xce6; 0xd66; 0xde6; 0xe50; 0xed0; 0xf20; 0x1040; 0x1090;
    0x17e0; 0x1810; 0x1946; 0x19d0; 0x1a80; 0x1a90; 0x1b50; 0x1bb0;
    0x1c40; 0x1c50; 0xa620; 0xa8d0; 0xa900; 0xa9d0; 0xa9f0; 0xaa50;
    0xabf0; 0xff10; 0x104a0; 0x10d30; 0x11066; 0x110f0; 0x11136;
    0x111d0; 0x112f0; 0x11450; 0x114d0; 0x11650; 0x116c0; 0x11730;
    0x118e0; 0x11950; 0x11c50; 0x11d50; 0x11da0; 0x16a60; 0x16ac0;
    0x16b50; 0x1d7ce; 0x1d7d8; 0x1d7e2; 0x1d7ec; 0x1d7f6; 0x1e140;
    0x1e2f0; 0x1e950; 0x1fbf0 ].

(** Code points of numeric type Digit that are not decimal digits
    (superscripts, circled digits and the like), as closed intervals. *)
Definition other_digit_ranges : list (Z * Z) :=
  [ (0xb2, 0xb3); (0xb9, 0xb9); (0x1369, 0x1371); (0x19da, 0x19da);
    (0x2070, 0x2070); (0x2074, 0x2079); (0x2080, 0x2089);
    (0x2460, 0x2468); (0x2474, 0x247c); (0x2488, 0x2490);
    (0x24ea, 0x24ea); (0x24f5, 0x24fd); (0x24ff, 0x24ff);
    (0x2776, 0x277e); (0x2780, 0x2788); (0x278a, 0x2792);
    (0x10a40, 0x10a43); (0x10e60, 0x10e68); (0x11052, 0x1105a);
    (0x1f100, 0x1f10a) ].

Definition in_range (ch : Z) (rg : Z * Z) : bool :=
  (fst rg <=? ch) && (ch <=? snd rg).

Definition decimal_block (ch : char) : option Z :=
  find (fun z => in_range ch (z, z + 9)) decimal_zeros.

(** [ch.isdigit()] for a one-character string. *)
Definition isdigit (ch : char) : bool :=
  match decimal_block ch with
  | Some _ => true
  | None => existsb (in_range ch) other_digit_ranges
  end.

(** [int(ch)] for a one-character string: the value of a decimal digit,
    [ValueError] for anything else. *)
Definition int_of_char (ch : char) : result Z :=
  match decimal_block ch with
  | Some z => Ok (ch - z)
  | None => Raise ValueError
  end.

(** ** Utilities *)

(** The body of [for ch in r] in [parse_grid]; ["0."] is the pair of
    code points 48 and 46. *)
Fixpoint parse_row (r : str) (vals : list Z) : result (list Z) :=
  match r with
  | [] => Ok vals
  | ch :: r' =>
      if (ch =? 48) || (ch =? 46) then parse_row r' (vals ++ [0])
      else if isdigit ch && negb (ch =? 48) then
        d ← int_of_char ch;
        if negb ((1 <=? d) && (d <=? 9)) then Raise ValueError
        else parse_row r' (vals ++ [d])
      else Raise ValueError
  end.

Fixpoint parse_rows (grid : list str) (vals : list Z) : result (list Z) :=
  match grid with
  | [] => Ok vals
  | r :: grid' => vals' ← parse_row r vals; parse_rows grid' vals'
  end.

Definition parse_grid (grid : list str) : result (list Z) :=
  if (Nat.eqb (length grid) 9) && forallb (fun r => Nat.eqb (length r) 9) grid
  then parse_rows grid []
  else Raise AssertionError.

Definition box_index (r c : Z) : Z := (r / 3) * 3 + c / 3.

(** [1 << (d - 1)]; a negative shift count raises [ValueError].  Python
    integers are unbounded; the failure of the interpreter on a shift too
    large for its memory is not modelled. *)
Definition bit (d : Z) : result Z :=
  if d - 1 <? 0 then Raise ValueError else Ok (Z.shiftl 1 (d - 1)).

Definition range_1_10 : list Z := [1; 2; 3; 4; 5; 6; 7; 8; 9].

Fixpoint bits_to_list_loop (mask : Z) (ds : list Z) (out : list Z) : result (list Z) :=
  match ds with
  | [] => Ok out
  | d :: ds' =>
      m ← bit d;
      if truthy (Z.land mask m) then bits_to_list_loop mask ds' (out ++ [d])
      else bits_to_list_loop mask ds' out
  end.

Definition bits_to_list (mask : Z) : result (list Z) :=
  bits_to_list_loop mask range_1_10 [].

(** ** The breadth-first solver *)

(** The attributes of a [SudokuBFS] object. *)
Record SudokuBFS : Type := mkSudokuBFS {
  start : list Z;
  row_used : list Z;
  col_used : list Z;
  box_used : list Z
}.

(** The loop of [__init__] over [enumerate(cells)]; [idx] is the index
    of the head of [cells]. *)
Fixpoint init_loop (idx : Z) (cells : list Z) (ru cu bu : list Z)
  : result (list Z * list Z * list Z) :=
  match cells with
  | [] => Ok (ru, cu, bu)
  | v :: rest =>
      if v =? 0 then init_loop (idx + 1) rest ru cu bu
      else
        let '(r, c) := divmod idx 9 in
        let b := box_index r c in
        m ← bit v;
        x ← getitem ru r;
        if truthy (Z.land x m) then Raise ValueError else
        y ← getitem cu c;
        if truthy (Z.land y m) then Raise ValueError else
        z ← getitem bu b;
        if truthy (Z.land z m) then Raise ValueError else
        ru' ← setitem ru r (Z.lor x m);
        cu' ← setitem cu c (Z.lor y m);
        bu' ← setitem bu b (Z.lor z m);
        init_loop (idx + 1) rest ru' cu' bu'
  end.

Definition zeros9 : list Z := [0; 0; 0; 0; 0; 0; 0; 0; 0].

Definition SudokuBFS_init (cells : list Z) : result SudokuBFS :=
  if negb (Nat.eqb (length cells) 81) then Raise ValueError
  else
    '(ru, cu, bu) ← init_loop 0 cells zeros9 zeros9 zeros9;
    Ok (mkSudokuBFS cells ru cu bu).

(** The candidate mask the scan computes for the cell at [idx]. *)
Definition cand_mask_at (ru cu bu : list Z) (idx : Z) : result Z :=
  let '(r, c) := divmod idx 9 in
  let b := box_index r c in
  x ← getitem ru r;
  y ← getitem cu c;
  z ← getitem bu b;
  let used := Z.lor (Z.lor x y) z in
  Ok (Z.land (Z.lnot used) 0x1FF).

(** The loop of [_choose_cell_with_fewest_candidates]; the three
    accumulators are [best_idx], [best_mask] and [best_count]. *)
Fixpoint choose_loop (ru cu bu : list Z) (idx : Z) (board : list Z)
    (best_idx best_mask best_count : Z) : result (Z * Z) :=
  match board with
  | [] => Ok (best_idx, best_mask)
  | v :: rest =>
      if negb (v =? 0) then
        choose_loop ru cu bu (idx + 1) rest best_idx best_mask best_count
      else
        cand_mask ← cand_mask_at ru cu bu idx;
        if cand_mask =? 0 then Ok (idx, 0)
        else
          let count := bit_count cand_mask in
          if count <? best_count then
            if count =? 1 then Ok (idx, cand_mask)
            else choose_loop ru cu bu (idx + 1) rest idx cand_mask count
          else
            choose_loop ru cu bu (idx + 1) rest best_idx best_mask best_count
  end.

Definition choose_cell_with_fewest_candidates
    (board ru cu bu : list Z) : result (Z * Z) :=
  choose_loop ru cu bu 0 board (-1) 0 10.

(** A search state, as the tuples kept in the deque. *)
Abbreviation state := (list Z * list Z * list Z * list Z)%type.

Definition st_board (s : state) : list Z := s.1.1.1.

(** The re-check before a child is built:
    [(nr[r] & m) or (nc[c] & m) or (nb[b] & m)]. *)
Definition recheck (nr nc nb : list Z) (r c b m : Z) : result bool :=
  x ← getitem nr r;
  if truthy (Z.land x m) then Ok true else
  y ← getitem nc c;
  if truthy (Z.land y m) then Ok true else
  z ← getitem nb b;
  Ok (truthy (Z.land z m)).

(** The child for digit [d], or [None] when the iteration is skipped. *)
Definition child (board ru cu bu : list Z) (idx r c b cand_mask d : Z)
  : result (option state) :=
  m ← bit d;
  if negb (truthy (Z.land cand_mask m)) then Ok None
  else
    next_board ← setitem board idx d;
    skip ← recheck ru cu bu r c b m;
    if (skip : bool) then Ok None
    else
      x ← getitem ru r;
      nr ← setitem ru r (Z.lor x m);
      y ← getitem cu c;
      nc ← setitem cu c (Z.lor y m);
      z ← getitem bu b;
      nb ← setitem bu b (Z.lor z m);
      Ok (Some (next_board, nr, nc, nb)).

(** The loop [for d in range(1, 10)] of [solve], appending to the deque. *)
Fixpoint expand (board ru cu bu : list Z) (idx r c b cand_mask : Z)
    (ds : list Z) (q : list state) : result (list state) :=
  match ds with
  | [] => Ok q
  | d :: ds' =>
      o ← child board ru cu bu idx r c b cand_mask d;
      match o with
      | None => expand board ru cu bu idx r c b cand_mask ds' q
      | Some s => expand board ru cu bu idx r c b cand_mask ds' (q ++ [s])
      end
  end.

(** The loop [while q]; each unit of fuel pays for one iteration, and
    [None] means the fuel ran out before the loop ended. *)
Fixpoint solve_loop (fuel : nat) (q : list state)
  : option (result (option (list Z))) :=
  match q with
  | [] => Some (Ok None)
  | (board, ru, cu, bu) :: q' =>
      match fuel with
      | O => None
      | S fuel' =>
          match choose_cell_with_fewest_candidates board ru cu bu with
          | Raise e => Some (Raise e)
          | Ok (idx, cand_mask) =>
              if idx =? -1 then Some (Ok (Some board))
              else if cand_mask =? 0 then solve_loop fuel' q'
              else
                let '(r, c) := divmod idx 9 in
                let b := box_index r c in
                match expand board ru cu bu idx r c b cand_mask range_1_10 q' with
                | Raise e => Some (Raise e)
                | Ok q'' => solve_loop fuel' q''
                end
          end
      end
  end.

Definition solve (fuel : nat) (self : SudokuBFS)
  : option (result (option (list Z))) :=
  let start_board := start self in
  if forallb (fun v => negb (v =? 0)) start_board then Some (Ok (Some start_board))
  else solve_loop fuel [(start_board, row_used self, col_used self, box_used self)].

(** ** Pretty printing and the demo *)

(** [str(v)] for an integer: its decimal digits, after a minus sign when
    it is negative.  The interpreter's limit on the number of digits of a
    conversion is not modelled. *)
Fixpoint uint_chars (u : Decimal.uint) : str :=
  match u with
  | Decimal.Nil => []
  | Decimal.D0 u' => 48 :: uint_chars u'
  | Decimal.D1 u' => 49 :: uint_chars u'
  | Decimal.D2 u' => 50 :: uint_chars u'
  | Decimal.D3 u' => 51 :: uint_chars u'
  | Decimal.D4 u' => 52 :: uint_chars u'
  | Decimal.D5 u' => 53 :: uint_chars u'
  | Decimal.D6 u' => 54 :: uint_chars u'
  | Decimal.D7 u' => 55 :: uint_chars u'
  | Decimal.D8 u' => 56 :: uint_chars u'
  | Decimal.D9 u' => 57 :: uint_chars u'
  end.

Definition str_of_int (v : Z) : str :=
  match Z.to_int v with
  | Decimal.Pos u => uint_chars u
  | Decimal.Neg u => 45 :: uint_chars u
  end.

(** [sep.join(l)]. *)
Fixpoint join (sep : str) (l : list str) : str :=
  match l with
  | [] => []
  | s :: rest =>
      match rest with
      | [] => s
      | _ :: _ => s ++ sep ++ join sep rest
      end
  end.

(** [l[lo:hi]]: a negative bound counts from the end, and both bounds
    are clamped to the list, so a slice never raises. *)
Definition slice_bound {A} (l : list A) (i : Z) : Z :=
  let n := Z.of_nat (length l) in
  if i <? 0 then Z.max 0 (i + n) else Z.min i n.

Definition slice {A} (l : list A) (lo hi : Z) : list A :=
  let a := slice_bound l lo in
  let b := slice_bound l hi in
  take (Z.to_nat (b - a)) (drop (Z.to_nat a) l).

Definition space : char := 32.

Definition range_9 : list Z := [0; 1; 2; 3; 4; 5; 6; 7; 8].

Fixpoint board_to_lines_loop (board : list Z) (rs : list Z) (out : list str)
  : list str :=
  match rs with
  | [] => out
  | r :: rs' =>
      let row := slice board (r * 9) ((r + 1) * 9) in
      board_to_lines_loop board rs'
        (out ++ [join [space] (map str_of_int row)])
  end.

Definition board_to_lines (board : list Z) : list str :=
  board_to_lines_loop board range_9 [].

(** A string literal of the module as code points. *)
Definition of_string (s : String.string) : str :=
  map (fun a => Z.of_N (Ascii.N_of_ascii a)) (String.list_ascii_of_string s).

(** The block under [if __name__ == "__main__"], for a given grid: the
    lines it prints, or the exception that ends it. *)
Definition main (fuel : nat) (grid : list str)
  : option (result (list str)) :=
  match parse_grid grid with
  | Raise e => Some (Raise e)
  | Ok cells =>
      match SudokuBFS_init cells with
      | Raise e => Some (Raise e)
      | Ok solver =>
          match solve fuel solver with
          | None => None
          | Some (Raise e) => Some (Raise e)
          | Some (Ok None) => Some (Ok [of_string "No solution found."%string])
          | Some (Ok (Some solved)) =>
              Some (Ok (of_string "Solved board:"%string :: board_to_lines solved))
          end
      end
  end.

(** ** The example of the module *)

Definition dot : char := 46.
Definition dg (n : Z) : char := 48 + n.

Definition puzzle : list str :=
  [ [dg 5; dg 3; dot; dot; dg 7; dot; dot; dot; dot];
    [dg 6; dot; dot; dg 1; dg 9; dg 5; dot; dot; dot];
    [dot; dg 9; dg 8; dot; dot; dot; dot; dg 6; dot];
    [dg 8; dot; dot; dot; dg 6; dot; dot; dot; dg 3];
    [dg 4; dot; dot; dg 8; dot; dg 3; dot; dot; dg 1];
    [dg 7; dot; dot; dot; dg 2; dot; dot; dot; dg 6];
    [dot; dg 6; dot; dot; dot; dot; dg 2; dg 8; dot];
    [dot; dot; dot; dg 4; dg 1; dg 9; dot; dot; dg 5];
    [dot; dot; dot; dot; dg 8; dot; dot; dg 7; dg 9] ].

Definition puzzle_cells : list Z :=
  [ 5; 3; 0; 0; 7; 0; 0; 0; 0;
    6; 0; 0; 1; 9; 5; 0; 0; 0;
    0; 9; 8; 0; 0; 0; 0; 6; 0;
    8; 0; 0; 0; 6; 0; 0; 0; 3;
    4; 0; 0; 8; 0; 3; 0; 0; 1;
    7; 0; 0; 0; 2; 0; 0; 0; 6;
    0; 6; 0; 0; 0; 0; 2; 8; 0;
    0; 0; 0; 4; 1; 9; 0; 0; 5;
    0; 0; 0; 0; 8; 0; 0; 7; 9 ].

Definition puzzle_solution : list Z :=
  [ 5; 3; 4; 6; 7; 8; 9; 1; 2;
    6; 7; 2; 1; 9; 5; 3; 4; 8;
    1; 9; 8; 3; 4; 2; 5; 6; 7;
    8; 5; 9; 7; 6; 1; 4; 2; 3;
    4; 2; 6; 8; 5; 3; 7; 9; 1;
    7; 1; 3; 9; 2; 4; 8; 5; 6;
    9; 6; 1; 5; 3; 7; 2; 8; 4;
    2; 8; 7; 4; 1; 9; 6; 3; 5;
    3; 4; 5; 2; 8; 6; 1; 7; 9 ].

(** The board of 81 blanks. *)
Definition all_blank : list Z := repeat 0 81%nat.

(** The solved example with its first two cells blanked. *)
Definition almost_solved : list Z := 0 :: 0 :: drop 2 puzzle_solution.

(** Two fives in the first column, everything else blank. *)
Definition two_fives : list Z :=
  [5] ++ repeat 0 8%nat ++ [5] ++ repeat 0 71%nat.

(** A board whose first cell has the single candidate 1 and whose second
    cell has no candidate at all. *)
Definition dead_end_cells : list Z :=
  [ 0; 0; 3; 4; 5; 6; 7; 8; 9;
    0; 0; 0; 0; 0; 0; 0; 0; 0;
    0; 0; 0; 0; 0; 0; 0; 0; 0;
    2; 0; 0; 0; 0; 0; 0; 0; 0;
    0; 1; 0; 0; 0; 0; 0; 0; 0;
    0; 0; 0; 0; 0; 0; 0; 0; 0;
    0; 2; 0; 0; 0; 0; 0; 0; 0;
    0; 0; 0; 0; 0; 0; 0; 0; 0;
    0; 0; 0; 0; 0; 0; 0; 0; 0 ].

Definition dead_end_self : SudokuBFS :=
  mkSudokuBFS dead_end_cells
    [508; 0; 0; 2; 1; 0; 2; 0; 0]
    [2; 3; 4; 8; 16; 32; 64; 128; 256]
    [4; 56; 448; 3; 0; 0; 2; 0; 0].

Definition almost_self : SudokuBFS :=
  Eval vm_compute in
    match SudokuBFS_init almost_solved with
    | Ok self => self
    | Raise _ => mkSudokuBFS [] [] [] []
    end.

(** The solver object of the example puzzle. *)
Definition puzzle_self : SudokuBFS :=
  Eval vm_compute in
    match SudokuBFS_init puzzle_cells with
    | Ok self => self
    | Raise _ => mkSudokuBFS [] [] [] []
    end.

(** A board whose only assigned cell holds 10. *)
Definition ten_board : list Z := 10 :: repeat 0 80%nat.



(** Nine rows of nine characters whose first character is U+0661,
    ARABIC-INDIC DIGIT ONE; every other character is a dot. *)
Definition arabic_one : char := 0x661.

Definition arabic_grid : list str :=
  (arabic_one :: repeat dot 8%nat) :: repeat (repeat dot 9%nat) 8%nat.

(** ** Specification vocabulary *)

(** The value at position [i] of a board or of a table of masks. *)
Definition cell (l : list Z) (i : Z) : Z := l !!! Z.to_nat i.

(** The three units a position belongs to, as the code computes them. *)
Definition row (i : Z) : Z := (divmod i 9).1.
Definition col (i : Z) : Z := (divmod i 9).2.
Definition box (i : Z) : Z := box_index (row i) (col i).

(** Position [i], among the first [k], holds [d]. *)
Definition holds (board : list Z) (k : Z) (i d : Z) : Prop :=
  0 <= i < k /\ cell board i = d.

(** A table of nine masks represents the digits placed per unit: bit
    [d - 1] of entry [x] is set exactly when some position of unit [x]
    holds [d]. *)
Definition mask_repr (u : Z -> Z) (P : Z -> Z -> Prop) (m : list Z) : Prop :=
  length m = 9%nat /\
  forall x d, 0 <= x < 9 -> 1 <= d ->
    (Z.testbit (cell m x) (d - 1) = true <-> exists i, P i d /\ u i = x).

(** No two of the first [k] positions that share a unit hold the same
    assigned value. *)
Definition distinct_in (u : Z -> Z) (board : list Z) (k : Z) : Prop :=
  forall i j, 0 <= i < k -> 0 <= j < k -> i <> j -> u i = u j ->
    cell board i <> 0 -> cell board i <> cell board j.

Definition no_conflict (board : list Z) (k : Z) : Prop :=
  distinct_in row board k /\ distinct_in col board k /\ distinct_in box board k.

(** Two cells of a common row, column or box hold the same digit. *)
Definition conflict (cells : list Z) : Prop :=
  exists i j d, 0 <= i < 81 /\ 0 <= j < 81 /\ i <> j /\
    (row i = row j \/ col i = col j \/ box i = box j) /\
    1 <= d <= 9 /\ cell cells i = d /\ cell cells j = d.

(** A board as the data model has it: 81 cells, each 0 (blank) or 1-9. *)
Definition valid_cells (cells : list Z) : Prop :=
  length cells = 81%nat /\ forall i, 0 <= i < 81 -> 0 <= cell cells i <= 9.

(** The three tables represent the digits placed among the first [k]
    positions. *)
Definition masks_ok (board : list Z) (k : Z) (ru cu bu : list Z) : Prop :=
  mask_repr row (holds board k) ru /\
  mask_repr col (holds board k) cu /\
  mask_repr box (holds board k) bu.

Definition nonneg_upto (cells : list Z) (k : Z) : Prop :=
  forall i, 0 <= i < k -> 0 <= cell cells i.

(** The invariant of a search state. *)
Definition state_ok (s : state) : Prop :=
  let '(board, ru, cu, bu) := s in
  valid_cells board /\ no_conflict board 81 /\ masks_ok board 81 ru cu bu.

(** The 81 positions in scan order, and those of unit [x]. *)
Definition positions : list Z := map Z.of_nat (seq 0 81).

Definition unit_cells (u : Z -> Z) (x : Z) : list Z :=
  List.filter (fun i => u i =? x) positions.

(** Unit [x] contains each digit 1-9 exactly once. *)
Definition complete_unit (u : Z -> Z) (board : list Z) (x : Z) : Prop :=
  forall d, 1 <= d <= 9 ->
    exists! i, 0 <= i < 81 /\ u i = x /\ cell board i = d.

Definition solved (board : list Z) : Prop :=
  length board = 81%nat /\
  (forall i, 0 <= i < 81 -> cell board i <> 0) /\
  forall x, 0 <= x < 9 ->
    complete_unit row board x /\ complete_unit col board x /\
    complete_unit box board x.

(** Fully assigned and constraint-satisfying. *)
Definition full_valid (board : list Z) : Prop :=
  length board = 81%nat /\
  (forall i, 0 <= i < 81 -> 1 <= cell board i <= 9) /\
  no_conflict board 81.

(** [b] keeps every assigned cell of [b0]. *)
Definition extends (b0 b : list Z) : Prop :=
  length b = length b0 /\
  forall i, 0 <= i < 81 -> cell b0 i <> 0 -> cell b i = cell b0 i.

(** [b] fills every blank of [cells] with a digit and satisfies the
    uniqueness constraints. *)
Definition completion (cells b : list Z) : Prop :=
  extends cells b /\ full_valid b.

(** Boolean checks of the predicates above, for concrete boards. *)
Definition valid_cellsb (cells : list Z) : bool :=
  Nat.eqb (length cells) 81 &&
  forallb (fun v => (0 <=? v) && (v <=? 9)) cells.

Definition distinct_inb (u : Z -> Z) (board : list Z) : bool :=
  forallb (fun i =>
    forallb (fun j =>
      (i =? j) || negb (u i =? u j) || (cell board i =? 0)
      || negb (cell board i =? cell board j)) positions) positions.

Definition full_validb (board : list Z) : bool :=
  Nat.eqb (length board) 81 &&
  forallb (fun v => (1 <=? v) && (v <=? 9)) board &&
  distinct_inb row board && distinct_inb col board && distinct_inb box board.

(** The characters the loader is specified to accept, and the value
    each stands for. *)
Definition allowed_char (ch : char) : bool :=
  ((49 <=? ch) && (ch <=? 57)) || (ch =? 46) || (ch =? 48).

Definition char_value (ch : char) : Z :=
  if (ch =? 48) || (ch =? 46) then 0 else ch - 48.

(** The mask with the bits of the digits of [l], as [__init__] and
    [solve] accumulate them with [|= bit(d)]. *)
Definition mask_of_digits (l : list Z) : Z :=
  fold_right (fun d acc => Z.lor (Z.shiftl 1 (d - 1)) acc) 0 l.

(** Digit [d] is in the used set that the mask [m] stands for. *)
Definition used (m d : Z) : bool := Z.testbit m (d - 1).

(** The candidate set of the cell at [idx], as the specification defines
    it from the three tables: the digits 1-9 minus the union of the used
    sets of the cell's row, column and box. *)
Definition candidates (ru cu bu : list Z) (idx : Z) : list Z :=
  List.filter
    (fun d => negb (used (cell ru (row idx)) d || used (cell cu (col idx)) d
                    || used (cell bu (box idx)) d))
    range_1_10.

(** The assigned values of unit [x], in scan order. *)
Definition unit_values (u : Z -> Z) (cells : list Z) (x : Z) : list Z :=
  List.filter (fun v => negb (v =? 0)) (map (cell cells) (unit_cells u x)).

(** The shape every state of the frontier has. *)
Definition state_shape (s : state) : Prop :=
  let '(board, ru, cu, bu) := s in
  length board = 81%nat /\ length ru = 9%nat /\
  length cu = 9%nat /\ length bu = 9%nat.

(** Positions [i] and [j] share a row, a column or a box. *)
Definition peers (i j : Z) : Prop :=
  row i = row j \/ col i = col j \/ box i = box j.

(** The number of blank cells, and the measure of a frontier. *)
Fixpoint blanks (board : list Z) : nat :=
  match board with
  | [] => O
  | v :: rest => if v =? 0 then S (blanks rest) else blanks rest
  end.

Definition weight (s : state) : Z := 10 ^ Z.of_nat (blanks (st_board s)).

Fixpoint measure (q : list state) : Z :=
  match q with
  | [] => 0
  | s :: q' => weight s + measure q'
  end.

(** The children [solve] appends for the cell [idx] and the mask
    [cand_mask], for the digits [ds]. *)
Definition kid (board ru cu bu : list Z) (idx d : Z) : state :=
  let m := 2 ^ (d - 1) in
  (<[Z.to_nat idx := d]> board,
   <[Z.to_nat (row idx) := Z.lor (cell ru (row idx)) m]> ru,
   <[Z.to_nat (col idx) := Z.lor (cell cu (col idx)) m]> cu,
   <[Z.to_nat (box idx) := Z.lor (cell bu (box idx)) m]> bu).

Fixpoint kids (board ru cu bu : list Z) (idx cand_mask : Z) (ds : list Z)
  : list state :=
  match ds with
  | [] => []
  | d :: ds' =>
      if Z.testbit cand_mask (d - 1)
      then kid board ru cu bu idx d :: kids board ru cu bu idx cand_mask ds'
      else kids board ru cu bu idx cand_mask ds'
  end.

(** * Properties *)

Ltac zlia := Z.to_euclidean_division_equations; lia.

Ltac split3 := split; [| split].

(** ** The primitives *)

Section Primitives.

Lemma bind_Ok {A B} (f : A -> result B) (a : A) : (Ok a ≫= f) = f a.
Proof. reflexivity. Qed.

Lemma bind_Ok_inv {A B} (f : A -> result B) (m : result A) (b : B) :
  (m ≫= f) = Ok b -> exists a, m = Ok a /\ f a = Ok b.
Proof. destruct m as [a|e]; [eauto | discriminate]. Qed.

Lemma py_index_in {A} (l : list A) (i : Z) :
  0 <= i < Z.of_nat (length l) -> py_index l i = Ok (Z.to_nat i).
Proof.
  intros H. unfold py_index.
  destruct (Z.ltb_spec i 0); [lia |].
  destruct (Z.leb_spec 0 i); [| lia].
  destruct (Z.ltb_spec i (Z.of_nat (length l))); [reflexivity | lia].
Qed.

Lemma py_index_nonneg_inv {A} (l : list A) (i : Z) (k : nat) :
  0 <= i -> py_index l i = Ok k ->
  i < Z.of_nat (length l) /\ k = Z.to_nat i.
Proof.
  intros Hi. unfold py_index.
  destruct (Z.ltb_spec i 0); [lia |].
  destruct (Z.leb_spec 0 i); [| lia].
  destruct (Z.ltb_spec i (Z.of_nat (length l))); simpl; [| discriminate].
  intros [= <-]. auto.
Qed.

Lemma getitem_in (l : list Z) (i : Z) :
  0 <= i < Z.of_nat (length l) -> getitem l i = Ok (cell l i).
Proof.
  intros H. unfold getitem. rewrite py_index_in by assumption.
  rewrite bind_Ok. unfold cell.
  rewrite (list_lookup_lookup_total_lt l (Z.to_nat i)) by lia.
  reflexivity.
Qed.

Lemma getitem_nonneg_inv (l : list Z) (i x : Z) :
  0 <= i -> getitem l i = Ok x ->
  i < Z.of_nat (length l) /\ x = cell l i.
Proof.
  intros Hi H.
  destruct (Z.lt_ge_cases i (Z.of_nat (length l))) as [Hlt | Hge].
  - rewrite getitem_in in H by lia. injection H as <-. auto.
  - unfold getitem, py_index in H.
    destruct (Z.ltb_spec i 0); [lia |].
    destruct (Z.ltb_spec i (Z.of_nat (length l))); [lia |].
    rewrite andb_false_r in H. discriminate.
Qed.

Lemma setitem_in (l : list Z) (i x : Z) :
  0 <= i < Z.of_nat (length l) ->
  setitem l i x = Ok (<[Z.to_nat i := x]> l).
Proof.
  intros H. unfold setitem. rewrite py_index_in by assumption.
  reflexivity.
Qed.

Lemma cell_insert_eq (l : list Z) (i x : Z) :
  0 <= i < Z.of_nat (length l) -> cell (<[Z.to_nat i := x]> l) i = x.
Proof.
  intros H. unfold cell. apply list_lookup_total_insert_eq. lia.
Qed.

Lemma cell_insert_ne (l : list Z) (i j x : Z) :
  0 <= i -> 0 <= j -> i <> j -> cell (<[Z.to_nat i := x]> l) j = cell l j.
Proof.
  intros Hi Hj Hne. unfold cell. apply list_lookup_total_insert_ne. lia.
Qed.

Lemma cell_app_r (pre rest : list Z) (k : Z) :
  0 <= k -> cell (pre ++ rest) (Z.of_nat (length pre) + k) = cell rest k.
Proof.
  intros Hk. unfold cell.
  replace (Z.to_nat (Z.of_nat (length pre) + k))
    with (length pre + Z.to_nat k)%nat by lia.
  rewrite !list_lookup_total_alt, lookup_app_r by lia.
  replace (length pre + Z.to_nat k - length pre)%nat with (Z.to_nat k) by lia.
  reflexivity.
Qed.

Lemma cell_middle (pre rest : list Z) (v : Z) :
  cell (pre ++ v :: rest) (Z.of_nat (length pre)) = v.
Proof.
  replace (Z.of_nat (length pre)) with (Z.of_nat (length pre) + 0) by lia.
  rewrite cell_app_r by lia. reflexivity.
Qed.

Lemma bit_pos (d : Z) : 1 <= d -> bit d = Ok (2 ^ (d - 1)).
Proof.
  intros H. unfold bit. destruct (Z.ltb_spec (d - 1) 0); [lia |].
  rewrite Z.shiftl_1_l. reflexivity.
Qed.

Lemma bit_neg (d : Z) : d < 1 -> bit d = Raise ValueError.
Proof.
  intros H. unfold bit. destruct (Z.ltb_spec (d - 1) 0); [reflexivity | lia].
Qed.

Lemma truthy_land_pow2 (x n : Z) :
  0 <= n -> truthy (Z.land x (2 ^ n)) = Z.testbit x n.
Proof.
  intros Hn. unfold truthy.
  destruct (Z.testbit x n) eqn:Hb.
  - destruct (Z.eqb_spec (Z.land x (2 ^ n)) 0) as [E | E]; [| reflexivity].
    assert (Z.testbit (Z.land x (2 ^ n)) n = true) as Ht.
    { rewrite Z.land_spec, Hb, Z.pow2_bits_true by assumption. reflexivity. }
    rewrite E, Z.bits_0 in Ht. discriminate.
  - replace (Z.land x (2 ^ n)) with 0; [reflexivity |].
    symmetry. apply Z.bits_inj'. intros k Hk.
    rewrite Z.land_spec, Z.bits_0, Z.pow2_bits_eqb by assumption.
    destruct (Z.eqb_spec n k) as [<- | _].
    + rewrite Hb. reflexivity.
    + apply andb_false_r.
Qed.

Lemma testbit_lor_pow2 (x n k : Z) :
  0 <= n -> Z.testbit (Z.lor x (2 ^ n)) k = Z.testbit x k || (n =? k).
Proof.
  intros Hn. rewrite Z.lor_spec, Z.pow2_bits_eqb by assumption. reflexivity.
Qed.

Lemma testbit_cand (used k : Z) :
  0 <= k ->
  Z.testbit (Z.land (Z.lnot used) 0x1FF) k = negb (Z.testbit used k) && (k <? 9).
Proof.
  intros Hk. change 0x1FF with (Z.ones 9).
  rewrite Z.land_spec, Z.lnot_spec, Z.testbit_ones_nonneg by lia.
  reflexivity.
Qed.

Lemma cand_range (used : Z) : 0 <= Z.land (Z.lnot used) 0x1FF <= 511.
Proof.
  pose proof (Z.land_ones (Z.lnot used) 9) as E.
  change (Z.ones 9) with 0x1FF in E. rewrite E by lia.
  pose proof (Z.mod_pos_bound (Z.lnot used) (2 ^ 9) eq_refl) as H.
  change (2 ^ 9) with 512 in *. lia.
Qed.

Lemma pos_bit_count_pos (p : positive) : 1 <= pos_bit_count p.
Proof. induction p; simpl; lia. Qed.

Lemma pos_bit_count_size (p : positive) :
  pos_bit_count p <= Z.pos (Pos.size p).
Proof. induction p; simpl; lia. Qed.

Lemma bit_count_bounds (z : Z) : 0 < z <= 511 -> 1 <= bit_count z <= 9.
Proof.
  destruct z as [| p | p]; try lia. intros [_ Hz]. simpl. split.
  - apply pos_bit_count_pos.
  - pose proof (pos_bit_count_size p) as Hs.
    pose proof (Pos.size_le p) as Hle.
    assert (Z.pos (Pos.size p) < 10); [| lia].
    apply (Z.pow_lt_mono_r_iff 2); [lia | lia |].
    change (2 ^ 10) with 1024.
    assert (Z.pos (2 ^ Pos.size p) <= Z.pos p~0) as H2 by exact Hle.
    rewrite Pos2Z.inj_pow in H2. lia.
Qed.

Lemma units_bounds (i : Z) :
  0 <= i < 81 -> 0 <= row i < 9 /\ 0 <= col i < 9 /\ 0 <= box i < 9.
Proof.
  intros H. unfold box, box_index, row, col, divmod. simpl. zlia.
Qed.

Lemma divmod_9 (i : Z) : divmod i 9 = (row i, col i).
Proof. reflexivity. Qed.

End Primitives.

(** ** Masks as representations of the digits placed *)

Lemma holds_succ (cells : list Z) (k i d : Z) :
  0 <= k ->
  (holds cells (k + 1) i d <-> holds cells k i d \/ (i = k /\ d = cell cells k)).
Proof.
  unfold holds. intros Hk. split.
  - intros [H1 H2]. destruct (Z.eq_dec i k) as [-> | Hne]; [right | left]; auto with lia.
  - intros [[H1 H2] | [-> ->]]; split; auto with lia.
Qed.

Section Masks.

Variable u : Z -> Z.

Lemma mask_repr_update (P P' : Z -> Z -> Prop) (m : list Z) (i0 d0 : Z) :
  mask_repr u P m -> 0 <= u i0 < 9 -> 1 <= d0 ->
  (forall i d, 1 <= d -> (P' i d <-> P i d \/ (i = i0 /\ d = d0))) ->
  mask_repr u P'
    (<[Z.to_nat (u i0) := Z.lor (cell m (u i0)) (2 ^ (d0 - 1))]> m).
Proof.
  intros [Hlen Hm] Hu Hd HP. split.
  - rewrite length_insert. exact Hlen.
  - intros x d Hx Hd'. destruct (Z.eq_dec x (u i0)) as [-> | Hne].
    + rewrite cell_insert_eq, testbit_lor_pow2 by lia.
      rewrite orb_true_iff, Hm, Z.eqb_eq by assumption. split.
      * intros [(i & Hi & Hui) | Heq].
        -- exists i. split; [apply HP; auto | assumption].
        -- exists i0. split; [| reflexivity].
           apply HP; [assumption |]. right. split; [reflexivity | lia].
      * intros (i & Hi & Hui). apply HP in Hi as [Hi | [-> ->]]; [| | lia].
        -- left. eauto.
        -- right. reflexivity.
    + rewrite cell_insert_ne by lia. rewrite Hm by assumption.
      split; intros (i & Hi & Hui); exists i; (split; [| assumption]).
      * apply HP; auto.
      * apply HP in Hi as [Hi | [-> ->]]; [assumption | congruence | assumption].
Qed.

Lemma mask_repr_ext (P P' : Z -> Z -> Prop) (m : list Z) :
  mask_repr u P m ->
  (forall i d, 1 <= d -> (P' i d <-> P i d)) ->
  mask_repr u P' m.
Proof.
  intros [Hlen Hm] HP. split; [exact Hlen |].
  intros x d Hx Hd. rewrite Hm by assumption.
  split; intros (i & Hi & Hui); exists i; (split; [apply HP |]); assumption.
Qed.

Lemma mask_repr_bit (P : Z -> Z -> Prop) (m : list Z) (i d : Z) :
  mask_repr u P m -> 0 <= u i < 9 -> 1 <= d -> P i d ->
  Z.testbit (cell m (u i)) (d - 1) = true.
Proof.
  intros [_ Hm] Hu Hd HP. apply Hm; eauto.
Qed.

(** When the next cell is blank, or holds a value whose bit is clear in
    the mask of its unit, the prefix stays free of duplicates. *)
Lemma distinct_in_step (cells m : list Z) (k : Z) :
  mask_repr u (holds cells k) m -> distinct_in u cells k ->
  0 <= k -> 0 <= u k < 9 ->
  cell cells k = 0 \/
    (1 <= cell cells k /\
     Z.testbit (cell m (u k)) (cell cells k - 1) = false) ->
  distinct_in u cells (k + 1).
Proof.
  intros Hm Hd Hk Hu Hv i j Hi Hj Hne Hu' Hnz Heq.
  destruct (Z.eq_dec i k) as [-> | Hik], (Z.eq_dec j k) as [-> | Hjk].
  - congruence.
  - destruct Hv as [Hv | [Hv Hb]]; [congruence |].
    assert (Z.testbit (cell m (u j)) (cell cells k - 1) = true) as Ht.
    { apply (mask_repr_bit (holds cells k)); [assumption | lia | assumption |].
      split; [lia | congruence]. }
    rewrite <- Hu', Hb in Ht. discriminate.
  - destruct Hv as [Hv | [Hv Hb]]; [congruence |].
    assert (Z.testbit (cell m (u i)) (cell cells k - 1) = true) as Ht.
    { apply (mask_repr_bit (holds cells k)); [assumption | lia | assumption |].
      split; [lia | congruence]. }
    rewrite Hu', Hb in Ht. discriminate.
  - apply (Hd i j); (lia || assumption).
Qed.

Lemma mask_repr_length (P : Z -> Z -> Prop) (m : list Z) :
  mask_repr u P m -> Z.of_nat (length m) = 9.
Proof. intros [Hlen _]. lia. Qed.

Lemma mask_repr_bit_inv (P : Z -> Z -> Prop) (m : list Z) (x d : Z) :
  mask_repr u P m -> 0 <= x < 9 -> 1 <= d ->
  Z.testbit (cell m x) (d - 1) = true -> exists i, P i d /\ u i = x.
Proof. intros [_ Hm] Hx Hd Hb. apply Hm; assumption. Qed.

(** A set bit for the value of the next cell exhibits a duplicate. *)
Lemma distinct_in_refuted (cells m : list Z) (k n : Z) :
  mask_repr u (holds cells k) m -> k < n -> 0 <= u k < 9 ->
  1 <= cell cells k ->
  Z.testbit (cell m (u k)) (cell cells k - 1) = true ->
  ~ distinct_in u cells n.
Proof.
  intros Hm Hkn Hu Hv Hb Hd.
  apply (mask_repr_bit_inv _ _ _ _ Hm) in Hb as (i & [Hi Hci] & Hui);
    [| assumption | assumption].
  apply (Hd i k); (lia || assumption).
Qed.

Lemma distinct_in_mono (cells : list Z) (k n : Z) :
  k <= n -> distinct_in u cells n -> distinct_in u cells k.
Proof.
  intros Hkn Hd i j Hi Hj. apply Hd; lia.
Qed.

End Masks.

(** ** Initialization *)

Section Init.

Variable cells : list Z.

Hypothesis cells_le : Z.of_nat (length cells) <= 81.

Lemma init_loop_spec (rest : list Z) :
  forall pre ru cu bu,
    cells = pre ++ rest ->
    masks_ok cells (Z.of_nat (length pre)) ru cu bu ->
    no_conflict cells (Z.of_nat (length pre)) ->
    nonneg_upto cells (Z.of_nat (length pre)) ->
    match init_loop (Z.of_nat (length pre)) rest ru cu bu with
    | Ok (ru', cu', bu') =>
        masks_ok cells (Z.of_nat (length cells)) ru' cu' bu' /\
        no_conflict cells (Z.of_nat (length cells)) /\
        nonneg_upto cells (Z.of_nat (length cells))
    | Raise e =>
        e = ValueError /\
        ~ (no_conflict cells (Z.of_nat (length cells)) /\
           nonneg_upto cells (Z.of_nat (length cells)))
    end.
Proof.
  induction rest as [| v rest IH]; intros pre ru cu bu Hc Hm Hd Hp.
  - rewrite app_nil_r in Hc. subst pre. simpl. auto.
  - assert (Z.of_nat (length pre) < Z.of_nat (length cells)) as Hlt.
    { rewrite Hc, length_app. simpl. lia. }
    assert (cell cells (Z.of_nat (length pre)) = v) as Hv.
    { rewrite Hc. apply cell_middle. }
    assert (Z.of_nat (length (pre ++ [v])) = Z.of_nat (length pre) + 1) as Hk.
    { rewrite length_app. simpl. lia. }
    specialize (IH (pre ++ [v])). rewrite Hk in IH.
    assert (cells = (pre ++ [v]) ++ rest) as Hc'.
    { rewrite <- app_assoc. exact Hc. }
    set (k := Z.of_nat (length pre)) in *.
    assert (0 <= k < 81) as Hk81 by lia.
    destruct (units_bounds k Hk81) as (Hr & Hcl & Hb).
    destruct Hm as (Hmr & Hmc & Hmb).
    destruct Hd as (Hdr & Hdc & Hdb).
    simpl init_loop.
    change (k `div` 9) with (row k). change (k `mod` 9) with (col k).
    change (box_index (row k) (col k)) with (box k).
    pose proof (holds_succ cells k) as Hs. rewrite Hv in Hs.
    destruct (Z.eqb_spec v 0) as [Hz | Hnz].
    { apply IH; [assumption | | |].
      - split3; (eapply mask_repr_ext; [eassumption |]);
          intros i d Hd1; rewrite Hs by lia; intuition lia.
      - split3; (eapply distinct_in_step; [eassumption | ..]);
          (assumption || lia || (left; congruence)).
      - intros i Hi. destruct (Z.eq_dec i k) as [-> | Hne]; [lia |].
        apply Hp. lia. }
    destruct (Z.lt_ge_cases v 1) as [Hneg | Hpos].
    { rewrite bit_neg by assumption. simpl. split; [reflexivity |].
      intros [_ Hnn]. specialize (Hnn k). lia. }
    rewrite bit_pos, bind_Ok by assumption.
    rewrite (getitem_in ru), bind_Ok, truthy_land_pow2
      by (rewrite ?(mask_repr_length _ _ _ Hmr); lia).
    destruct (Z.testbit (cell ru (row k)) (v - 1)) eqn:Hbr.
    { split; [reflexivity |]. intros [(Hnr & _) _]. revert Hnr.
      eapply distinct_in_refuted; [exact Hmr | ..]; (lia || congruence). }
    rewrite (getitem_in cu), bind_Ok, truthy_land_pow2
      by (rewrite ?(mask_repr_length _ _ _ Hmc); lia).
    destruct (Z.testbit (cell cu (col k)) (v - 1)) eqn:Hbc.
    { split; [reflexivity |]. intros [(_ & Hnc & _) _]. revert Hnc.
      eapply distinct_in_refuted; [exact Hmc | ..]; (lia || congruence). }
    rewrite (getitem_in bu), bind_Ok, truthy_land_pow2
      by (rewrite ?(mask_repr_length _ _ _ Hmb); lia).
    destruct (Z.testbit (cell bu (box k)) (v - 1)) eqn:Hbb.
    { split; [reflexivity |]. intros [(_ & _ & Hnb) _]. revert Hnb.
      eapply distinct_in_refuted; [exact Hmb | ..]; (lia || congruence). }
    rewrite (setitem_in ru), bind_Ok
      by (rewrite (mask_repr_length _ _ _ Hmr); lia).
    rewrite (setitem_in cu), bind_Ok
      by (rewrite (mask_repr_length _ _ _ Hmc); lia).
    rewrite (setitem_in bu), bind_Ok
      by (rewrite (mask_repr_length _ _ _ Hmb); lia).
    apply IH; [assumption | | |].
    + split3; (eapply mask_repr_update; [eassumption | lia | lia |]);
        intros i d Hd1; apply Hs; lia.
    + split3; (eapply distinct_in_step; [eassumption | ..]);
        (assumption || lia || (right; rewrite Hv; split; assumption)).
    + intros i Hi. destruct (Z.eq_dec i k) as [-> | Hne]; [lia |].
      apply Hp. lia.
Qed.

End Init.

Lemma cell_zeros9 (x : Z) : 0 <= x < 9 -> cell zeros9 x = 0.
Proof.
  intros Hx. unfold cell.
  assert (Z.to_nat x < 9)%nat as Hn by lia.
  destruct (Z.to_nat x) as [| [| [| [| [| [| [| [| [| n]]]]]]]]];
    (reflexivity || lia).
Qed.

Lemma masks_ok_zeros (cells : list Z) : masks_ok cells 0 zeros9 zeros9 zeros9.
Proof.
  split3; (split; [reflexivity |]); intros x d Hx Hd;
    rewrite cell_zeros9, Z.bits_0 by assumption;
    (split; [discriminate | intros (i & [Hi _] & _); lia]).
Qed.

Lemma conflict_no_conflict (cells : list Z) :
  conflict cells -> ~ no_conflict cells 81.
Proof.
  intros (i & j & d & Hi & Hj & Hne & Hu & Hd & Hci & Hcj) (Hr & Hc & Hb).
  destruct Hu as [Hu | [Hu | Hu]];
    [apply (Hr i j) | apply (Hc i j) | apply (Hb i j)];
    (assumption || lia).
Qed.

(** What [__init__] does on 81 cells: it succeeds exactly when no unit has
    a duplicate and no value is negative, and then the tables represent
    the board. *)
Lemma init_spec (cells : list Z) :
  length cells = 81%nat ->
  match SudokuBFS_init cells with
  | Ok self =>
      start self = cells /\
      masks_ok cells 81 (row_used self) (col_used self) (box_used self) /\
      no_conflict cells 81 /\ nonneg_upto cells 81
  | Raise e =>
      e = ValueError /\ ~ (no_conflict cells 81 /\ nonneg_upto cells 81)
  end.
Proof.
  intros Hlen. unfold SudokuBFS_init. rewrite Hlen. simpl negb. cbv iota.
  pose proof (init_loop_spec cells ltac:(lia) cells [] zeros9 zeros9 zeros9
                eq_refl (masks_ok_zeros cells)) as H.
  simpl length in H. change (Z.of_nat 0) with 0 in H.
  rewrite Hlen in H. change (Z.of_nat 81) with 81 in H.
  destruct (init_loop 0 cells zeros9 zeros9 zeros9) as [[[ru cu] bu] | e].
  - simpl. split; [reflexivity |]. apply H.
    + split3; intros i j Hi; lia.
    + intros i Hi; lia.
  - simpl. apply H.
    + split3; intros i j Hi; lia.
    + intros i Hi; lia.
Qed.

Lemma init_state_ok (cells : list Z) (self : SudokuBFS) :
  valid_cells cells -> SudokuBFS_init cells = Ok self ->
  start self = cells /\
  state_ok (start self, row_used self, col_used self, box_used self).
Proof.
  intros Hv Hi. pose proof (init_spec cells (proj1 Hv)) as H.
  rewrite Hi in H. destruct H as (-> & Hm & Hn & _).
  split; [reflexivity |]. split3; assumption.
Qed.

Lemma init_succeeds (cells : list Z) :
  length cells = 81%nat -> no_conflict cells 81 -> nonneg_upto cells 81 ->
  exists self, SudokuBFS_init cells = Ok self.
Proof.
  intros Hlen Hn Hp. pose proof (init_spec cells Hlen) as H.
  destruct (SudokuBFS_init cells) as [self | e]; [eauto |].
  destruct H as [_ []]. auto.
Qed.

(** The check comes before the update: a value whose bit is already in
    the table of its row, column or box stops the loop at once. *)
Lemma init_loop_detects (idx v : Z) (rest ru cu bu : list Z) :
  length ru = 9%nat -> length cu = 9%nat -> length bu = 9%nat ->
  0 <= idx < 81 -> 1 <= v ->
  Z.testbit (cell ru (row idx)) (v - 1) = true \/
  Z.testbit (cell cu (col idx)) (v - 1) = true \/
  Z.testbit (cell bu (box idx)) (v - 1) = true ->
  init_loop idx (v :: rest) ru cu bu = Raise ValueError.
Proof.
  intros Hr Hc Hb Hi Hv Hbit.
  destruct (units_bounds idx Hi) as (H1 & H2 & H3).
  simpl init_loop. destruct (Z.eqb_spec v 0) as [-> | _]; [lia |].
  change (idx `div` 9) with (row idx). change (idx `mod` 9) with (col idx).
  change (box_index (row idx) (col idx)) with (box idx).
  rewrite bit_pos, bind_Ok by assumption.
  rewrite (getitem_in ru), bind_Ok, truthy_land_pow2 by lia.
  destruct (Z.testbit (cell ru (row idx)) (v - 1)); [reflexivity |].
  rewrite (getitem_in cu), bind_Ok, truthy_land_pow2 by lia.
  destruct (Z.testbit (cell cu (col idx)) (v - 1)); [reflexivity |].
  rewrite (getitem_in bu), bind_Ok, truthy_land_pow2 by lia.
  destruct (Z.testbit (cell bu (box idx)) (v - 1)); [reflexivity |].
  destruct Hbit as [Hbit | [Hbit | Hbit]]; discriminate.
Qed.

(** ** Cell selection *)

Lemma cand_mask_at_in (ru cu bu : list Z) (idx : Z) :
  length ru = 9%nat -> length cu = 9%nat -> length bu = 9%nat ->
  0 <= idx < 81 ->
  cand_mask_at ru cu bu idx =
  Ok (Z.land (Z.lnot (Z.lor (Z.lor (cell ru (row idx)) (cell cu (col idx)))
                            (cell bu (box idx)))) 0x1FF).
Proof.
  intros Hr Hc Hb Hi. destruct (units_bounds idx Hi) as (H1 & H2 & H3).
  unfold cand_mask_at. rewrite divmod_9.
  change (box_index (row idx) (col idx)) with (box idx).
  rewrite !getitem_in by lia. reflexivity.
Qed.

Lemma cand_mask_at_inv (ru cu bu : list Z) (idx m : Z) :
  0 <= idx -> cand_mask_at ru cu bu idx = Ok m ->
  getitem ru (row idx) = Ok (cell ru (row idx)) /\
  getitem cu (col idx) = Ok (cell cu (col idx)) /\
  getitem bu (box idx) = Ok (cell bu (box idx)) /\
  m = Z.land (Z.lnot (Z.lor (Z.lor (cell ru (row idx)) (cell cu (col idx)))
                            (cell bu (box idx)))) 0x1FF.
Proof.
  intros Hi H. unfold cand_mask_at in H. rewrite divmod_9 in H.
  change (box_index (row idx) (col idx)) with (box idx) in H.
  assert (0 <= row idx /\ 0 <= col idx /\ 0 <= box idx) as (H1 & H2 & H3).
  { unfold box, box_index, row, col, divmod. simpl. zlia. }
  apply bind_Ok_inv in H as (x & Hx & H).
  apply bind_Ok_inv in H as (y & Hy & H).
  apply bind_Ok_inv in H as (z & Hz & H).
  pose proof (getitem_nonneg_inv _ _ _ H1 Hx) as [_ ->].
  pose proof (getitem_nonneg_inv _ _ _ H2 Hy) as [_ ->].
  pose proof (getitem_nonneg_inv _ _ _ H3 Hz) as [_ ->].
  injection H as <-. auto.
Qed.

Lemma cand_mask_at_range (ru cu bu : list Z) (idx m : Z) :
  cand_mask_at ru cu bu idx = Ok m -> 0 <= m <= 511.
Proof.
  unfold cand_mask_at. rewrite divmod_9. intros H.
  apply bind_Ok_inv in H as (x & Hx & H).
  apply bind_Ok_inv in H as (y & Hy & H).
  apply bind_Ok_inv in H as (z & Hz & H).
  injection H as <-. apply cand_range.
Qed.

Lemma cand_count_bounds (ru cu bu : list Z) (idx m : Z) :
  cand_mask_at ru cu bu idx = Ok m -> m <> 0 -> 1 <= bit_count m <= 9.
Proof.
  intros H Hm. apply cand_mask_at_range in H. apply bit_count_bounds. lia.
Qed.

Section Choose.

Variables ru cu bu board : list Z.

(** The general statement about the scan from position [length pre]
    on, with any accumulators: either nothing better than the
    accumulated best was met, or the returned cell is a blank of the
    scanned part, with its own candidate mask. *)
Lemma choose_loop_spec (rest : list Z) :
  forall pre bi bm bc i m,
    board = pre ++ rest -> 2 <= bc ->
    choose_loop ru cu bu (Z.of_nat (length pre)) rest bi bm bc = Ok (i, m) ->
    (i = bi /\ m = bm /\
     forall k, Z.of_nat (length pre) <= k < Z.of_nat (length board) ->
       cell board k = 0 ->
       exists mk, cand_mask_at ru cu bu k = Ok mk /\ mk <> 0 /\
                  bc <= bit_count mk)
    \/
    (Z.of_nat (length pre) <= i < Z.of_nat (length board) /\
     cell board i = 0 /\ cand_mask_at ru cu bu i = Ok m /\
     (forall k, Z.of_nat (length pre) <= k < i -> cell board k = 0 ->
        exists mk, cand_mask_at ru cu bu k = Ok mk /\ mk <> 0 /\
                   bit_count mk <> 1 /\
                   (m <> 0 -> bit_count m < bit_count mk)) /\
     (m = 0 \/
      (bit_count m < bc /\
       (bit_count m = 1 \/
        forall k, i < k < Z.of_nat (length board) -> cell board k = 0 ->
          exists mk, cand_mask_at ru cu bu k = Ok mk /\ mk <> 0 /\
                     bit_count m <= bit_count mk)))).
Proof.
  induction rest as [| v rest IH]; intros pre bi bm bc i m Hb Hbc H.
  - simpl in H. injection H as <- <-. left. split3; [reflexivity .. |].
    rewrite app_nil_r in Hb. subst pre. intros k Hk. lia.
  - assert (Z.of_nat (length pre) < Z.of_nat (length board)) as Hlt.
    { rewrite Hb, length_app. simpl. lia. }
    assert (cell board (Z.of_nat (length pre)) = v) as Hv.
    { rewrite Hb. apply cell_middle. }
    assert (Z.of_nat (length (pre ++ [v])) = Z.of_nat (length pre) + 1) as Hk.
    { rewrite length_app. simpl. lia. }
    assert (board = (pre ++ [v]) ++ rest) as Hb'.
    { rewrite <- app_assoc. exact Hb. }
    specialize (IH (pre ++ [v])). rewrite Hk in IH.
    set (k0 := Z.of_nat (length pre)) in *.
    simpl in H. destruct (Z.eqb_spec v 0) as [Hz | Hnz]; simpl in H.
    2:{ apply IH in H as [(-> & -> & Hall) | (Hi & Hci & Hcm & Hpre & Hpost)];
          [| | assumption ..].
        - left. split3; [reflexivity .. |]. intros k Hk' Hck.
          apply Hall; [| assumption].
          destruct (Z.eq_dec k k0) as [-> | Hne]; [congruence | lia].
        - right. split3; [lia | assumption |].
          split3; [assumption | | assumption].
          intros k Hk' Hck. apply Hpre; [| assumption].
          destruct (Z.eq_dec k k0) as [-> | Hne]; [congruence | lia]. }
    destruct (cand_mask_at ru cu bu k0) as [cm | e] eqn:Hcm0;
      [rewrite bind_Ok in H | discriminate].
    destruct (Z.eqb_spec cm 0) as [Hcz | Hcnz].
    { injection H as <- <-. right. subst cm.
      split3; [lia | congruence |]. split3; [assumption | | left; reflexivity].
      intros k Hk'. lia. }
    pose proof (cand_count_bounds _ _ _ _ _ Hcm0 Hcnz) as Hcb.
    destruct (Z.ltb_spec (bit_count cm) bc) as [Hlt' | Hge].
    + destruct (Z.eqb_spec (bit_count cm) 1) as [H1 | Hn1].
      { injection H as <- <-. right.
        split3; [lia | congruence |]. split3; [assumption | |].
        - intros k Hk'. lia.
        - right. split; [assumption |]. left. assumption. }
      apply IH in H as [(-> & -> & Hall) | (Hi & Hci & Hcm & Hpre & Hpost)];
        [| | assumption | lia].
      * right. split3; [lia | congruence |]. split3; [assumption | |].
        -- intros k Hk'. lia.
        -- right. split; [assumption |]. right. intros k Hk' Hck.
           apply Hall; [lia | assumption].
      * right. split3; [lia | assumption |]. split3; [assumption | |].
        -- intros k Hk' Hck. destruct (Z.eq_dec k k0) as [-> | Hne].
           ++ exists cm. split3; [assumption .. |]. split; [assumption |].
              intros Hm0.
              destruct Hpost as [-> | [Hlt2 _]]; [congruence | assumption].
           ++ apply Hpre; [lia | assumption].
        -- destruct Hpost as [-> | (Hlt2 & Hpost)]; [left; reflexivity |].
           right. split; [lia | assumption].
    + apply IH in H as [(-> & -> & Hall) | (Hi & Hci & Hcm & Hpre & Hpost)];
        [| | assumption ..].
      * left. split3; [reflexivity .. |]. intros k Hk' Hck.
        destruct (Z.eq_dec k k0) as [-> | Hne].
        -- exists cm. split3; assumption.
        -- apply Hall; [lia | assumption].
      * right. split3; [lia | assumption |]. split3; [assumption | | assumption].
        intros k Hk' Hck. destruct (Z.eq_dec k k0) as [-> | Hne].
        -- exists cm. split3; [assumption .. |]. split; [lia |].
           intros Hm0.
           destruct Hpost as [-> | [Hlt2 _]]; [congruence | lia].
        -- apply Hpre; [lia | assumption].
Qed.

(** The scan raises nothing when every candidate mask can be computed. *)
Lemma choose_loop_total (rest : list Z) :
  forall pre bi bm bc,
    board = pre ++ rest ->
    (forall k, Z.of_nat (length pre) <= k < Z.of_nat (length board) ->
       exists mk, cand_mask_at ru cu bu k = Ok mk) ->
    exists r, choose_loop ru cu bu (Z.of_nat (length pre)) rest bi bm bc = Ok r.
Proof.
  induction rest as [| v rest IH]; intros pre bi bm bc Hb Hall.
  - simpl. eauto.
  - assert (Z.of_nat (length pre) < Z.of_nat (length board)) as Hlt.
    { rewrite Hb, length_app. simpl. lia. }
    assert (Z.of_nat (length (pre ++ [v])) = Z.of_nat (length pre) + 1) as Hk.
    { rewrite length_app. simpl. lia. }
    assert (board = (pre ++ [v]) ++ rest) as Hb'.
    { rewrite <- app_assoc. exact Hb. }
    specialize (IH (pre ++ [v])). rewrite Hk in IH.
    assert (forall k, Z.of_nat (length pre) + 1 <= k < Z.of_nat (length board) ->
              exists mk, cand_mask_at ru cu bu k = Ok mk) as Hall'.
    { intros k Hk'. apply Hall. lia. }
    simpl. destruct (v =? 0); simpl; [| apply IH; assumption].
    destruct (Hall (Z.of_nat (length pre))) as [cm ->]; [lia |].
    rewrite bind_Ok. destruct (cm =? 0); [eauto |].
    destruct (bit_count cm <? bc); [| apply IH; assumption].
    destruct (bit_count cm =? 1); [eauto | apply IH; assumption].
Qed.

End Choose.

(** What a successful call of the selection says about its result. *)
Lemma choose_spec (board ru cu bu : list Z) (i m : Z) :
  choose_cell_with_fewest_candidates board ru cu bu = Ok (i, m) ->
  (i = -1 /\ m = 0 /\
   forall k, 0 <= k < Z.of_nat (length board) -> cell board k <> 0)
  \/
  (0 <= i < Z.of_nat (length board) /\
   cell board i = 0 /\ cand_mask_at ru cu bu i = Ok m /\
   (forall k, 0 <= k < i -> cell board k = 0 ->
      exists mk, cand_mask_at ru cu bu k = Ok mk /\ mk <> 0 /\
                 bit_count mk <> 1 /\
                 (m <> 0 -> bit_count m < bit_count mk)) /\
   (m = 0 \/ bit_count m = 1 \/
    forall k, i < k < Z.of_nat (length board) -> cell board k = 0 ->
      exists mk, cand_mask_at ru cu bu k = Ok mk /\ mk <> 0 /\
                 bit_count m <= bit_count mk)).
Proof.
  intros H. unfold choose_cell_with_fewest_candidates in H.
  apply (choose_loop_spec ru cu bu board board [] (-1) 0 10 i m eq_refl) in H;
    [| lia].
  simpl length in H. change (Z.of_nat 0) with 0 in H.
  destruct H as [(-> & -> & Hall) | (Hi & Hci & Hcm & Hpre & Hpost)].
  - left. split3; [reflexivity .. |]. intros k Hk Hck.
    destruct (Hall k Hk Hck) as (mk & Hmk & Hnz & Hc).
    pose proof (cand_count_bounds _ _ _ _ _ Hmk Hnz). lia.
  - right. split3; [assumption .. |]. split3; [assumption .. |].
    destruct Hpost as [-> | [_ [H1 | Hl]]]; auto.
Qed.

Lemma choose_total (board ru cu bu : list Z) :
  Z.of_nat (length board) <= 81 ->
  length ru = 9%nat -> length cu = 9%nat -> length bu = 9%nat ->
  exists i m, choose_cell_with_fewest_candidates board ru cu bu = Ok (i, m).
Proof.
  intros Hb Hr Hc Hx.
  destruct (choose_loop_total ru cu bu board board [] (-1) 0 10 eq_refl)
    as [[i m] H].
  - intros k Hk. simpl in Hk. rewrite cand_mask_at_in by (assumption || lia).
    eauto.
  - exists i, m. exact H.
Qed.

(** The number of ones of a nine-bit mask is the number of digits that
    [bits_to_list] extracts from it. *)
Lemma bit_count_bits_to_list (m : Z) :
  0 <= m <= 511 ->
  exists l, bits_to_list m = Ok l /\ Z.of_nat (length l) = bit_count m.
Proof.
  intros Hm.
  assert (forallb
            (fun n => match bits_to_list (Z.of_nat n) with
                      | Ok l => Z.of_nat (length l) =? bit_count (Z.of_nat n)
                      | Raise _ => false
                      end) (seq 0 512) = true) as Hall
    by (vm_compute; reflexivity).
  rewrite forallb_forall in Hall.
  specialize (Hall (Z.to_nat m)). rewrite Z2Nat.id in Hall by lia.
  destruct (bits_to_list m) as [l | e].
  - exists l. split; [reflexivity |]. apply Z.eqb_eq, Hall, in_seq. lia.
  - discriminate Hall. apply in_seq. lia.
Qed.

(** The selection in terms of the masks it computes: on a board of 81
    cells with at least one blank, all of whose blanks have a non-zero
    mask, it returns a blank cell with its mask; no blank has a mask of
    fewer bits, every blank scanned before it has strictly more, and
    when the returned mask has exactly one bit the cells after it are
    not looked at. *)
Lemma choose_min_mask (board ru cu bu : list Z) :
  length board = 81%nat ->
  length ru = 9%nat -> length cu = 9%nat -> length bu = 9%nat ->
  (exists k, 0 <= k < 81 /\ cell board k = 0) ->
  (forall k mk, 0 <= k < 81 -> cell board k = 0 ->
     cand_mask_at ru cu bu k = Ok mk -> mk <> 0) ->
  exists i m,
    choose_cell_with_fewest_candidates board ru cu bu = Ok (i, m) /\
    0 <= i < 81 /\ cell board i = 0 /\ cand_mask_at ru cu bu i = Ok m /\
    (forall k mk, 0 <= k < 81 -> cell board k = 0 ->
       cand_mask_at ru cu bu k = Ok mk -> bit_count m <= bit_count mk) /\
    (forall k mk, 0 <= k < i -> cell board k = 0 ->
       cand_mask_at ru cu bu k = Ok mk -> bit_count m < bit_count mk) /\
    (bit_count m = 1 ->
     forall board', length board' = 81%nat ->
       (forall k, 0 <= k <= i -> cell board' k = cell board k) ->
       choose_cell_with_fewest_candidates board' ru cu bu = Ok (i, m)).
Proof.
  intros Hlen Hr Hc Hb (k0 & Hk0 & Hck0) Hall.
  destruct (choose_total board ru cu bu) as (i & m & H); [lia | assumption .. |].
  exists i, m. split; [assumption |].
  apply choose_spec in H as [(_ & _ & Hno) | (Hi & Hci & Hcm & Hpre & Hpost)].
  { exfalso. apply (Hno k0); [lia | assumption]. }
  rewrite Hlen in Hi, Hpost. change (Z.of_nat 81) with 81 in *.
  assert (m <> 0) as Hm by (apply (Hall i); assumption).
  pose proof (cand_count_bounds _ _ _ _ _ Hcm Hm) as Hcnt.
  assert (forall k mk, 0 <= k < i -> cell board k = 0 ->
            cand_mask_at ru cu bu k = Ok mk ->
            bit_count mk <> 1 /\ bit_count m < bit_count mk) as Hbefore.
  { intros k mk Hk Hck Hmk.
    destruct (Hpre k Hk Hck) as (mk' & Hmk' & _ & Hn1 & Hlt).
    rewrite Hmk in Hmk'. injection Hmk' as <-. auto. }
  split3; [assumption .. |]. split3; [assumption | |]. 2: split.
  - intros k mk Hk Hck Hmk.
    destruct (Z.lt_trichotomy k i) as [Hlt | [-> | Hgt]].
    + destruct (Hbefore k mk ltac:(lia) Hck Hmk). lia.
    + rewrite Hcm in Hmk. injection Hmk as <-. lia.
    + destruct Hpost as [-> | [H1 | Hl]]; [congruence | |].
      * pose proof (cand_count_bounds _ _ _ _ _ Hmk
                      (Hall k mk Hk Hck Hmk)). lia.
      * destruct (Hl k ltac:(lia) Hck) as (mk' & Hmk' & _ & Hle).
        rewrite Hmk in Hmk'. injection Hmk' as <-. assumption.
  - intros k mk Hk Hck Hmk. apply (Hbefore k mk); assumption.
  - intros H1 board' Hlen' Hagree.
    destruct (choose_total board' ru cu bu) as (i' & m' & H');
      [lia | assumption .. |].
    rewrite H'.
    apply choose_spec in H' as [(_ & _ & Hno) | (Hi' & Hci' & Hcm' & Hpre' & Hpost')].
    { exfalso. apply (Hno i); [lia |]. rewrite Hagree by lia. assumption. }
    rewrite Hlen' in Hi', Hpost'. change (Z.of_nat 81) with 81 in *.
    destruct (Z.lt_trichotomy i' i) as [Hlt | [-> | Hgt]].
    + exfalso. rewrite Hagree in Hci' by lia.
      destruct (Hbefore i' m' ltac:(lia) Hci' Hcm') as [Hn1 Hlt1].
      assert (m' <> 0) as Hm' by (apply (Hall i'); (assumption || lia)).
      destruct Hpost' as [-> | [H1' | Hl]]; [congruence | congruence |].
      destruct (Hl i ltac:(lia)) as (mk & Hmk & _ & Hle).
      { rewrite Hagree by lia. assumption. }
      rewrite Hcm in Hmk. injection Hmk as <-. lia.
    + rewrite Hcm in Hcm'. injection Hcm' as <-. reflexivity.
    + exfalso. destruct (Hpre' i ltac:(lia)) as (mk & Hmk & _ & Hn1 & _).
      { rewrite Hagree by lia. assumption. }
      rewrite Hcm in Hmk. injection Hmk as <-. congruence.
Qed.

(** ** Expansion of a state *)

Lemma In_range_1_10 (d : Z) : In d range_1_10 <-> 1 <= d <= 9.
Proof.
  unfold range_1_10. simpl. lia.
Qed.

(** A digit of the candidate mask is absent from the three tables. *)
Lemma cand_bit_unused (ru cu bu : list Z) (idx cand d : Z) :
  0 <= idx -> cand_mask_at ru cu bu idx = Ok cand -> 1 <= d ->
  Z.testbit cand (d - 1) = true ->
  d <= 9 /\
  Z.testbit (cell ru (row idx)) (d - 1) = false /\
  Z.testbit (cell cu (col idx)) (d - 1) = false /\
  Z.testbit (cell bu (box idx)) (d - 1) = false.
Proof.
  intros Hi Hc Hd Hb.
  apply cand_mask_at_inv in Hc as (_ & _ & _ & ->); [| assumption].
  rewrite testbit_cand, !Z.lor_spec in Hb by lia.
  apply andb_true_iff in Hb as [Hn Hlt].
  apply negb_true_iff in Hn.
  apply orb_false_iff in Hn as [Hn Hz].
  apply orb_false_iff in Hn as [Hx Hy].
  apply Z.ltb_lt in Hlt. auto with lia.
Qed.

Lemma cand_bit_used (ru cu bu : list Z) (idx cand d : Z) :
  0 <= idx -> cand_mask_at ru cu bu idx = Ok cand -> 1 <= d <= 9 ->
  Z.testbit cand (d - 1) = false ->
  Z.testbit (cell ru (row idx)) (d - 1) = true \/
  Z.testbit (cell cu (col idx)) (d - 1) = true \/
  Z.testbit (cell bu (box idx)) (d - 1) = true.
Proof.
  intros Hi Hc Hd Hb.
  apply cand_mask_at_inv in Hc as (_ & _ & _ & ->); [| assumption].
  rewrite testbit_cand, !Z.lor_spec in Hb by lia.
  destruct (Z.ltb_spec (d - 1) 9); [| lia].
  rewrite andb_true_r in Hb. apply negb_false_iff in Hb.
  apply orb_true_iff in Hb as [Hb | Hb]; [| auto].
  apply orb_true_iff in Hb as [Hb | Hb]; auto.
Qed.

Lemma recheck_clear (ru cu bu : list Z) (idx cand d : Z) :
  0 <= idx -> cand_mask_at ru cu bu idx = Ok cand -> 1 <= d ->
  Z.testbit cand (d - 1) = true ->
  recheck ru cu bu (row idx) (col idx) (box idx) (2 ^ (d - 1)) = Ok false.
Proof.
  intros Hi Hcm Hd Ht.
  destruct (cand_bit_unused _ _ _ _ _ _ Hi Hcm Hd Ht) as (_ & Hx & Hy & Hz).
  apply cand_mask_at_inv in Hcm as (Gx & Gy & Gz & _); [| lia].
  unfold recheck.
  rewrite Gx, bind_Ok, truthy_land_pow2, Hx by lia.
  rewrite Gy, bind_Ok, truthy_land_pow2, Hy by lia.
  rewrite Gz, bind_Ok, truthy_land_pow2, Hz by lia.
  reflexivity.
Qed.

(** C10: for the cell and mask that the selection returns, and every
    digit [d] of [range(1, 10)] whose bit is in the mask, the re-check on
    the copied tables evaluates to false, so its [continue] is never
    taken. *)
Theorem recheck_unreachable (board ru cu bu : list Z) (idx cand_mask d m : Z) :
  choose_cell_with_fewest_candidates board ru cu bu = Ok (idx, cand_mask) ->
  idx <> -1 ->
  In d range_1_10 -> bit d = Ok m -> truthy (Z.land cand_mask m) = true ->
  let '(r, c) := divmod idx 9 in
  recheck ru cu bu r c (box_index r c) m = Ok false.
Proof.
  intros H Hidx Hd Hm Ht. rewrite divmod_9.
  change (box_index (row idx) (col idx)) with (box idx).
  apply In_range_1_10 in Hd.
  rewrite bit_pos in Hm by lia. injection Hm as <-.
  rewrite truthy_land_pow2 in Ht by lia.
  apply choose_spec in H as [(-> & _) | (Hi & _ & Hcm & _)]; [congruence |].
  apply (recheck_clear _ _ _ _ cand_mask); (assumption || lia).
Qed.

(** The child built for a digit, for a cell inside the board whose
    candidate mask is [cand]. *)
Lemma child_spec (board ru cu bu : list Z) (idx cand d : Z) :
  0 <= idx < Z.of_nat (length board) ->
  cand_mask_at ru cu bu idx = Ok cand -> 1 <= d <= 9 ->
  child board ru cu bu idx (row idx) (col idx) (box idx) cand d =
  Ok (if Z.testbit cand (d - 1) then Some (kid board ru cu bu idx d) else None).
Proof.
  intros Hi Hc Hd. unfold child.
  rewrite bit_pos, bind_Ok, truthy_land_pow2 by lia.
  destruct (Z.testbit cand (d - 1)) eqn:Hb; [| reflexivity].
  simpl negb. cbv iota.
  pose proof Hc as Hc'.
  apply cand_mask_at_inv in Hc' as (Gx & Gy & Gz & _); [| lia].
  rewrite setitem_in, bind_Ok by assumption.
  rewrite (recheck_clear _ _ _ _ cand), bind_Ok by (assumption || lia).
  cbv iota.
  assert (0 <= row idx /\ 0 <= col idx /\ 0 <= box idx) as (H1 & H2 & H3).
  { unfold box, box_index, row, col, divmod. simpl. zlia. }
  apply getitem_nonneg_inv in Gx as [Lx _]; [| assumption].
  apply getitem_nonneg_inv in Gy as [Ly _]; [| assumption].
  apply getitem_nonneg_inv in Gz as [Lz _]; [| assumption].
  rewrite (getitem_in ru) by lia. rewrite bind_Ok. cbv beta.
  rewrite (setitem_in ru) by lia. rewrite bind_Ok. cbv beta.
  rewrite (getitem_in cu) by lia. rewrite bind_Ok. cbv beta.
  rewrite (setitem_in cu) by lia. rewrite bind_Ok. cbv beta.
  rewrite (getitem_in bu) by lia. rewrite bind_Ok. cbv beta.
  rewrite (setitem_in bu) by lia. rewrite bind_Ok. cbv beta.
  reflexivity.
Qed.

Lemma expand_spec (board ru cu bu : list Z) (idx cand : Z) (ds : list Z) :
  0 <= idx < Z.of_nat (length board) ->
  cand_mask_at ru cu bu idx = Ok cand ->
  (forall d, In d ds -> 1 <= d <= 9) ->
  forall q,
    expand board ru cu bu idx (row idx) (col idx) (box idx) cand ds q =
    Ok (q ++ kids board ru cu bu idx cand ds).
Proof.
  intros Hi Hc. induction ds as [| d ds IH]; intros Hds q.
  - simpl. rewrite app_nil_r. reflexivity.
  - simpl. rewrite child_spec, bind_Ok by (try apply Hds; simpl; auto).
    destruct (Z.testbit cand (d - 1)).
    + rewrite IH by (intros d' Hd'; apply Hds; simpl; auto).
      rewrite <- app_assoc. reflexivity.
    + apply IH. intros d' Hd'. apply Hds. simpl. auto.
Qed.

Lemma In_kids (board ru cu bu : list Z) (idx cand : Z) (ds : list Z) (s : state) :
  In s (kids board ru cu bu idx cand ds) <->
  exists d, In d ds /\ Z.testbit cand (d - 1) = true /\
            s = kid board ru cu bu idx d.
Proof.
  induction ds as [| d ds IH]; simpl.
  - split; [tauto | intros (d & [] & _)].
  - destruct (Z.testbit cand (d - 1)) eqn:Hb; simpl; rewrite IH; split.
    + intros [<- | (d' & Hd' & Hb' & ->)]; eauto 6.
    + intros (d' & [<- | Hd'] & Hb' & ->); eauto.
    + intros (d' & Hd' & Hb' & ->); eauto 6.
    + intros (d' & [<- | Hd'] & Hb' & ->); [congruence | eauto].
Qed.

Lemma length_kids (board ru cu bu : list Z) (idx cand : Z) (ds : list Z) :
  (length (kids board ru cu bu idx cand ds) <= length ds)%nat.
Proof.
  induction ds as [| d ds IH]; simpl; [lia |].
  destruct (Z.testbit cand (d - 1)); simpl; lia.
Qed.

(** ** Children keep the invariant *)

Lemma holds_insert (board : list Z) (idx d i d' : Z) :
  0 <= idx < 81 -> idx < Z.of_nat (length board) ->
  cell board idx = 0 -> 1 <= d' ->
  (holds (<[Z.to_nat idx := d]> board) 81 i d' <->
   holds board 81 i d' \/ (i = idx /\ d' = d)).
Proof.
  intros Hi Hlen Hc Hd'. unfold holds. split.
  - intros [Hr Hv]. destruct (Z.eq_dec i idx) as [-> | Hne].
    + rewrite cell_insert_eq in Hv by lia. auto.
    + rewrite cell_insert_ne in Hv by lia. auto.
  - intros [[Hr Hv] | [-> ->]].
    + split; [assumption |]. rewrite cell_insert_ne; [assumption | lia | lia |].
      intros ->. lia.
    + split; [assumption |]. apply cell_insert_eq. lia.
Qed.

Lemma distinct_in_insert (u : Z -> Z) (board m : list Z) (idx d : Z) :
  mask_repr u (holds board 81) m -> distinct_in u board 81 ->
  0 <= idx < 81 -> idx < Z.of_nat (length board) -> 0 <= u idx < 9 ->
  cell board idx = 0 -> 1 <= d ->
  Z.testbit (cell m (u idx)) (d - 1) = false ->
  distinct_in u (<[Z.to_nat idx := d]> board) 81.
Proof.
  intros Hm Hd Hi Hlen Hu Hc Hd1 Hb i j Hir Hjr Hne Huij Hnz Heq.
  assert (forall k, 0 <= k < 81 -> k <> idx -> u k = u idx ->
            cell board k <> d) as Hfree.
  { intros k Hk Hkne Huk Hck.
    assert (Z.testbit (cell m (u k)) (d - 1) = true) as Ht.
    { apply (mask_repr_bit u (holds board 81)); [assumption | lia | assumption |].
      split; assumption. }
    rewrite Huk, Hb in Ht. discriminate. }
  destruct (Z.eq_dec i idx) as [-> | Hi'], (Z.eq_dec j idx) as [-> | Hj'].
  - congruence.
  - rewrite cell_insert_eq in Heq by lia.
    rewrite cell_insert_ne in Heq by lia.
    apply (Hfree j); congruence.
  - rewrite cell_insert_eq in Heq by lia.
    rewrite cell_insert_ne in Heq by lia.
    apply (Hfree i); congruence.
  - rewrite !cell_insert_ne in * by lia.
    apply (Hd i j); assumption.
Qed.

Lemma kid_state_ok (board ru cu bu : list Z) (idx cand d : Z) :
  state_ok (board, ru, cu, bu) ->
  0 <= idx < 81 -> cell board idx = 0 ->
  cand_mask_at ru cu bu idx = Ok cand ->
  1 <= d -> Z.testbit cand (d - 1) = true ->
  state_ok (kid board ru cu bu idx d).
Proof.
  intros ([Hlen Hval] & (Hdr & Hdc & Hdb) & (Hmr & Hmc & Hmb)) Hi Hc Hcm Hd Hb.
  destruct (cand_bit_unused _ _ _ _ _ _ (proj1 Hi) Hcm Hd Hb)
    as (Hd9 & Hx & Hy & Hz).
  destruct (units_bounds idx Hi) as (H1 & H2 & H3).
  assert (idx < Z.of_nat (length board)) as Hlt by lia.
  unfold kid. split3.
  - split.
    + rewrite length_insert. assumption.
    + intros i Hir. destruct (Z.eq_dec i idx) as [-> | Hne].
      * rewrite cell_insert_eq by lia. lia.
      * rewrite cell_insert_ne by lia. apply Hval. assumption.
  - split3; (eapply distinct_in_insert; [eassumption | ..]); assumption.
  - split3; (eapply mask_repr_update; [eassumption | assumption | assumption |]);
      intros i d' Hd'; apply holds_insert; assumption.
Qed.

Lemma state_ok_length (board ru cu bu : list Z) :
  state_ok (board, ru, cu, bu) -> Z.of_nat (length board) = 81.
Proof. intros ([Hlen _] & _). lia. Qed.

Lemma state_ok_kid (board ru cu bu : list Z) (idx cand d : Z) :
  state_ok (board, ru, cu, bu) ->
  0 <= idx < Z.of_nat (length board) -> cell board idx = 0 ->
  cand_mask_at ru cu bu idx = Ok cand ->
  1 <= d <= 9 -> Z.testbit cand (d - 1) = true ->
  state_ok (kid board ru cu bu idx d).
Proof.
  intros Hs Hi Hc Hcm Hd Hb. rewrite (state_ok_length _ _ _ _ Hs) in Hi.
  apply (kid_state_ok board ru cu bu idx cand d); (assumption || lia).
Qed.

Lemma kid_extends (cells board ru cu bu : list Z) (idx d : Z) :
  extends cells board -> 0 <= idx -> cell board idx = 0 ->
  extends cells (st_board (kid board ru cu bu idx d)).
Proof.
  intros [Hlen Hext] Hi Hc. unfold kid, st_board. simpl. split.
  - rewrite length_insert. assumption.
  - intros i Hir Hnz. rewrite cell_insert_ne; [auto | lia | lia |].
    intros ->. rewrite Hext in Hc by assumption. congruence.
Qed.

(** ** The measure of the frontier *)

Lemma blanks_insert (board : list Z) (k : nat) (d : Z) :
  board !! k = Some 0 -> d <> 0 ->
  S (blanks (<[k := d]> board)) = blanks board.
Proof.
  revert k. induction board as [| v board IH]; intros k Hk Hd.
  - discriminate.
  - destruct k as [| k]; simpl in *.
    + injection Hk as ->. simpl.
      destruct (Z.eqb_spec d 0); [contradiction | reflexivity].
    + destruct (v =? 0); rewrite <- (IH k) by assumption; reflexivity.
Qed.

Lemma blanks_kid (board ru cu bu : list Z) (idx d : Z) :
  0 <= idx < Z.of_nat (length board) -> cell board idx = 0 -> d <> 0 ->
  S (blanks (st_board (kid board ru cu bu idx d))) = blanks board.
Proof.
  intros Hi Hc Hd. unfold kid, st_board. simpl.
  apply blanks_insert; [| assumption].
  unfold cell in Hc. rewrite <- Hc.
  apply list_lookup_lookup_total_lt. lia.
Qed.

Lemma weight_pos (s : state) : 1 <= weight s.
Proof.
  unfold weight.
  pose proof (Z.pow_pos_nonneg 10 (Z.of_nat (blanks (st_board s)))). lia.
Qed.

Lemma measure_nonneg (q : list state) : 0 <= measure q.
Proof.
  induction q as [| s q IH]; simpl; [lia |].
  pose proof (weight_pos s). lia.
Qed.

Lemma measure_app (q1 q2 : list state) :
  measure (q1 ++ q2) = measure q1 + measure q2.
Proof.
  induction q1 as [| s q1 IH]; simpl; lia.
Qed.

Lemma measure_bound (w : Z) (q : list state) :
  (forall s, In s q -> weight s = w) ->
  measure q = Z.of_nat (length q) * w.
Proof.
  induction q as [| s q IH]; intros H; simpl measure; simpl length; [lia |].
  rewrite IH by (intros s' Hs'; apply H; simpl; auto).
  rewrite (H s) by (simpl; auto). lia.
Qed.

(** The children of a state weigh less than the state. *)
Lemma measure_kids (board ru cu bu : list Z) (idx cand : Z) :
  0 <= idx < Z.of_nat (length board) -> cell board idx = 0 ->
  measure (kids board ru cu bu idx cand range_1_10) + 1
  <= weight (board, ru, cu, bu).
Proof.
  intros Hi Hc.
  set (w := 10 ^ Z.of_nat (blanks board - 1)).
  assert (forall s, In s (kids board ru cu bu idx cand range_1_10) ->
                    weight s = w /\ weight (board, ru, cu, bu) = 10 * w) as Hw.
  { intros s Hs. apply In_kids in Hs as (d & Hd & _ & ->).
    apply In_range_1_10 in Hd.
    pose proof (blanks_kid board ru cu bu idx d Hi Hc ltac:(lia)) as Hb.
    unfold weight, w. change (st_board (board, ru, cu, bu)) with board.
    rewrite <- Hb. split.
    - f_equal. lia.
    - rewrite Nat2Z.inj_succ, Z.pow_succ_r by lia. do 2 f_equal. lia. }
  pose proof (length_kids board ru cu bu idx cand range_1_10) as Hl.
  change (length range_1_10) with 9%nat in Hl.
  destruct (kids board ru cu bu idx cand range_1_10) as [| s q] eqn:Hk.
  - simpl. pose proof (weight_pos (board, ru, cu, bu)). lia.
  - rewrite <- Hk in *. rewrite (measure_bound w) by (intros; apply Hw; assumption).
    destruct (Hw s) as [_ ->]; [rewrite Hk; simpl; auto |].
    assert (1 <= w) as Hw1.
    { pose proof (Z.pow_pos_nonneg 10 (Z.of_nat (blanks board - 1))).
      unfold w. lia. }
    nia.
Qed.

(** ** One iteration of the frontier loop *)

Lemma solve_loop_S (fuel : nat) (board ru cu bu : list Z) (q : list state) :
  solve_loop (S fuel) ((board, ru, cu, bu) :: q) =
  match choose_cell_with_fewest_candidates board ru cu bu with
  | Raise e => Some (Raise e)
  | Ok (idx, cand_mask) =>
      if idx =? -1 then Some (Ok (Some board))
      else if cand_mask =? 0 then solve_loop fuel q
      else
        match expand board ru cu bu idx (row idx) (col idx) (box idx)
                cand_mask range_1_10 q with
        | Raise e => Some (Raise e)
        | Ok q'' => solve_loop fuel q''
        end
  end.
Proof. reflexivity. Qed.

(** The four ways an iteration can go: the selection raises; no blank is
    left and the board is returned; the selected cell has no candidate
    and the state is dropped; or the children are appended. *)
Lemma solve_loop_cases (fuel : nat) (board ru cu bu : list Z) (q : list state) :
  (exists e,
      choose_cell_with_fewest_candidates board ru cu bu = Raise e /\
      solve_loop (S fuel) ((board, ru, cu, bu) :: q) = Some (Raise e))
  \/
  ((forall k, 0 <= k < Z.of_nat (length board) -> cell board k <> 0) /\
   solve_loop (S fuel) ((board, ru, cu, bu) :: q) = Some (Ok (Some board)))
  \/
  (exists idx,
      0 <= idx < Z.of_nat (length board) /\ cell board idx = 0 /\
      cand_mask_at ru cu bu idx = Ok 0 /\
      solve_loop (S fuel) ((board, ru, cu, bu) :: q) = solve_loop fuel q)
  \/
  (exists idx cand,
      0 <= idx < Z.of_nat (length board) /\ cell board idx = 0 /\
      cand_mask_at ru cu bu idx = Ok cand /\ cand <> 0 /\
      solve_loop (S fuel) ((board, ru, cu, bu) :: q) =
      solve_loop fuel (q ++ kids board ru cu bu idx cand range_1_10)).
Proof.
  rewrite solve_loop_S.
  destruct (choose_cell_with_fewest_candidates board ru cu bu)
    as [[idx cand] | e] eqn:Hch; [| left; eauto].
  right.
  apply choose_spec in Hch as [(-> & -> & Hno) | (Hi & Hci & Hcm & _)].
  { left. split; [assumption | reflexivity]. }
  right. destruct (Z.eqb_spec idx (-1)) as [-> | _]; [lia |].
  destruct (Z.eqb_spec cand 0) as [-> | Hnz].
  { left. exists idx. auto. }
  right. exists idx, cand. split3; [assumption .. |].
  split3; [assumption .. |].
  rewrite expand_spec; [reflexivity | assumption | assumption |].
  intros d. apply In_range_1_10.
Qed.

(** ** Termination *)

Lemma solve_loop_terminates (fuel : nat) :
  forall q, measure q <= Z.of_nat fuel -> exists r, solve_loop fuel q = Some r.
Proof.
  induction fuel as [| fuel IH]; intros [| [[[board ru] cu] bu] q] Hm;
    try (simpl; eauto; fail).
  - simpl in Hm. pose proof (weight_pos (board, ru, cu, bu)).
    pose proof (measure_nonneg q). lia.
  - simpl measure in Hm.
    destruct (solve_loop_cases fuel board ru cu bu q)
      as [(e & _ & E) | [(_ & E) | [(idx & _ & _ & _ & E)
          | (idx & cand & Hi & Hc & _ & _ & E)]]]; rewrite E; eauto.
    + apply IH. pose proof (weight_pos (board, ru, cu, bu)). lia.
    + apply IH. rewrite measure_app.
      pose proof (measure_kids board ru cu bu idx cand Hi Hc). lia.
Qed.

Lemma solve_loop_mono (fuel : nat) :
  forall q r fuel', solve_loop fuel q = Some r -> (fuel <= fuel')%nat ->
                    solve_loop fuel' q = Some r.
Proof.
  induction fuel as [| fuel IH]; intros [| [[[board ru] cu] bu] q] r fuel' H Hle;
    try (destruct fuel'; simpl in *; (assumption || discriminate)).
  destruct fuel' as [| fuel']; [lia |].
  rewrite solve_loop_S in *.
  destruct (choose_cell_with_fewest_candidates board ru cu bu)
    as [[idx cand] | e]; [| assumption].
  destruct (idx =? -1); [assumption |].
  destruct (cand =? 0); [apply (IH q); [assumption | lia] |].
  match goal with
  | |- context [expand ?a ?b ?c ?d ?e ?f ?g ?h ?i ?j ?k] =>
      destruct (expand a b c d e f g h i j k) as [q' | e']
  end; [apply (IH q'); [assumption | lia] | assumption].
Qed.

(** The result does not depend on the fuel, once there is enough. *)
Lemma solve_loop_deterministic (f1 f2 : nat) (q : list state) r1 r2 :
  solve_loop f1 q = Some r1 -> solve_loop f2 q = Some r2 -> r1 = r2.
Proof.
  intros H1 H2.
  apply (solve_loop_mono f1 q r1 (Nat.max f1 f2)) in H1; [| lia].
  apply (solve_loop_mono f2 q r2 (Nat.max f1 f2)) in H2; [| lia].
  congruence.
Qed.

(** ** Invariants of the frontier *)

Section Frontier.

Variable I : state -> Prop.

Hypothesis I_kid :
  forall board ru cu bu idx cand d,
    I (board, ru, cu, bu) ->
    0 <= idx < Z.of_nat (length board) -> cell board idx = 0 ->
    cand_mask_at ru cu bu idx = Ok cand ->
    1 <= d <= 9 -> Z.testbit cand (d - 1) = true ->
    I (kid board ru cu bu idx d).

Lemma I_kids (board ru cu bu : list Z) (idx cand : Z) (q : list state) :
  I (board, ru, cu, bu) ->
  0 <= idx < Z.of_nat (length board) -> cell board idx = 0 ->
  cand_mask_at ru cu bu idx = Ok cand ->
  (forall s, In s q -> I s) ->
  forall s, In s (q ++ kids board ru cu bu idx cand range_1_10) -> I s.
Proof.
  intros HI Hi Hc Hcm Hq s Hs. apply in_app_or in Hs as [Hs | Hs]; [auto |].
  apply In_kids in Hs as (d & Hd & Hb & ->).
  apply In_range_1_10 in Hd. eapply I_kid; eassumption.
Qed.

(** A returned board is the board of a state that satisfies the
    invariant, and it has no blank. *)
Lemma solve_loop_returns (fuel : nat) :
  forall q b,
    (forall s, In s q -> I s) ->
    solve_loop fuel q = Some (Ok (Some b)) ->
    (exists ru cu bu, I (b, ru, cu, bu)) /\
    (forall k, 0 <= k < Z.of_nat (length b) -> cell b k <> 0).
Proof.
  induction fuel as [| fuel IH]; intros [| [[[board ru] cu] bu] q] b Hq H;
    try discriminate.
  assert (I (board, ru, cu, bu)) as HI by (apply Hq; simpl; auto).
  assert (forall s, In s q -> I s) as Hq' by (intros s Hs; apply Hq; simpl; auto).
  destruct (solve_loop_cases fuel board ru cu bu q)
    as [(e & _ & E) | [(Hno & E) | [(idx & _ & _ & _ & E)
        | (idx & cand & Hi & Hc & Hcm & _ & E)]]]; rewrite E in H.
  - discriminate.
  - injection H as <-. eauto.
  - apply (IH q); assumption.
  - apply (IH _ b) in H; [assumption |].
    apply I_kids; assumption.
Qed.

End Frontier.

Lemma solve_loop_no_raise (fuel : nat) :
  forall q e,
    (forall s, In s q -> state_ok s) -> solve_loop fuel q <> Some (Raise e).
Proof.
  induction fuel as [| fuel IH]; intros [| [[[board ru] cu] bu] q] e Hq H;
    try discriminate.
  assert (state_ok (board, ru, cu, bu)) as HI by (apply Hq; simpl; auto).
  assert (forall s, In s q -> state_ok s) as Hq'
      by (intros s Hs; apply Hq; simpl; auto).
  destruct (solve_loop_cases fuel board ru cu bu q)
    as [(e' & He & E) | [(Hno & E) | [(idx & _ & _ & _ & E)
        | (idx & cand & Hi & Hc & Hcm & _ & E)]]]; rewrite E in H.
  - destruct HI as ([Hlen _] & _ & (Hmr & Hmc & Hmb)).
    destruct (choose_total board ru cu bu) as (i & m & Hch);
      [lia | apply Hmr | apply Hmc | apply Hmb |].
    congruence.
  - discriminate.
  - apply (IH q e); assumption.
  - apply (IH _ e) in H; [assumption |].
    apply (I_kids state_ok state_ok_kid); assumption.
Qed.

(** The digit a completion puts in a blank cell is a candidate of that
    cell. *)
Lemma completion_digit_candidate (board ru cu bu b : list Z) (idx cand : Z) :
  state_ok (board, ru, cu, bu) -> full_valid b -> extends board b ->
  0 <= idx < 81 -> cell board idx = 0 ->
  cand_mask_at ru cu bu idx = Ok cand ->
  Z.testbit cand (cell b idx - 1) = true.
Proof.
  intros (_ & _ & (Hmr & Hmc & Hmb)) (_ & Hb19 & (Hdr & Hdc & Hdb))
    [_ Hext] Hi Hc Hcm.
  pose proof (Hb19 idx Hi) as Hd.
  destruct (units_bounds idx Hi) as (H1 & H2 & H3).
  assert (forall u m, mask_repr u (holds board 81) m -> distinct_in u b 81 ->
            0 <= u idx < 9 ->
            Z.testbit (cell m (u idx)) (cell b idx - 1) = true -> False) as Hu.
  { intros u m Hm Hdu Hui Hbit.
    apply (mask_repr_bit_inv u (holds board 81) m) in Hbit as (i & Hh & Huii);
      [| assumption | assumption | lia].
    destruct Hh as [Hir Hci].
    assert (cell b i = cell b idx) as Heq.
    { rewrite <- Hci. apply Hext; [assumption | lia]. }
    apply (Hdu i idx); try assumption; [| lia].
    intros ->. lia. }
  destruct (Z.testbit cand (cell b idx - 1)) eqn:Hbit; [reflexivity |].
  exfalso.
  destruct (cand_bit_used _ _ _ _ _ _ (proj1 Hi) Hcm Hd Hbit) as [Hx | [Hx | Hx]].
  - apply (Hu row ru); assumption.
  - apply (Hu col cu); assumption.
  - apply (Hu box bu); assumption.
Qed.

Lemma kid_extended (board ru cu bu b : list Z) (idx : Z) :
  extends board b -> 0 <= idx < Z.of_nat (length board) ->
  extends (st_board (kid board ru cu bu idx (cell b idx))) b.
Proof.
  intros [Hlen Hext] Hi. unfold kid, st_board. simpl. split.
  - rewrite length_insert. assumption.
  - intros i Hir. destruct (Z.eq_dec i idx) as [-> | Hne].
    + rewrite cell_insert_eq by lia. reflexivity.
    + rewrite cell_insert_ne by lia. apply Hext. assumption.
Qed.

(** While some state of the frontier can be completed to [b], the loop
    does not report that there is no solution. *)
Lemma solve_loop_complete (b : list Z) (fuel : nat) :
  full_valid b ->
  forall q,
    (forall s, In s q -> state_ok s) ->
    (exists s, In s q /\ extends (st_board s) b) ->
    solve_loop fuel q <> Some (Ok None).
Proof.
  intros Hb. induction fuel as [| fuel IH];
    intros [| [[[board ru] cu] bu] q] Hq (s & Hs & Hext) H;
    try discriminate; try (destruct Hs; fail).
  assert (state_ok (board, ru, cu, bu)) as HI by (apply Hq; simpl; auto).
  assert (forall s, In s q -> state_ok s) as Hq'
      by (intros s' Hs'; apply Hq; simpl; auto).
  assert (Z.of_nat (length board) = 81) as Hlen.
  { destruct HI as ([Hl _] & _). lia. }
  destruct (solve_loop_cases fuel board ru cu bu q)
    as [(e' & He & E) | [(Hno & E) | [(idx & Hi & Hc & Hcm & E)
        | (idx & cand & Hi & Hc & Hcm & _ & E)]]]; rewrite E in H.
  - discriminate.
  - discriminate.
  - apply (IH q); [assumption | | assumption].
    destruct Hs as [<- | Hs]; [| eauto]. exfalso.
    pose proof (completion_digit_candidate _ _ _ _ b idx 0 HI Hb Hext
                  ltac:(lia) Hc Hcm) as Hbit.
    rewrite Z.bits_0 in Hbit. discriminate.
  - apply (IH (q ++ kids board ru cu bu idx cand range_1_10));
      [| | assumption].
    + apply (I_kids state_ok state_ok_kid); assumption.
    + destruct Hs as [<- | Hs].
      * exists (kid board ru cu bu idx (cell b idx)). split.
        -- apply in_or_app. right. apply In_kids.
           exists (cell b idx). split3; [| | reflexivity].
           ++ apply In_range_1_10. apply Hb. lia.
           ++ apply (completion_digit_candidate board ru cu bu);
                (assumption || lia).
        -- apply kid_extended; assumption.
      * exists s. split; [apply in_or_app; auto | assumption].
Qed.

(** ** Complete boards *)

Lemma In_positions (i : Z) : In i positions <-> 0 <= i < 81.
Proof.
  unfold positions. rewrite in_map_iff. split.
  - intros (n & <- & Hn). apply in_seq in Hn. lia.
  - intros Hi. exists (Z.to_nat i). split; [lia |]. apply in_seq. lia.
Qed.

Lemma NoDup_positions : List.NoDup positions.
Proof.
  unfold positions. apply NoDup_map_NoDup_ForallPairs; [| apply seq_NoDup].
  intros a b _ _. apply Nat2Z.inj.
Qed.

Lemma In_unit_cells (u : Z -> Z) (x i : Z) :
  In i (unit_cells u x) <-> (0 <= i < 81 /\ u i = x).
Proof.
  unfold unit_cells. rewrite filter_In, In_positions, Z.eqb_eq. reflexivity.
Qed.

Lemma NoDup_unit_cells (u : Z -> Z) (x : Z) : List.NoDup (unit_cells u x).
Proof.
  unfold unit_cells. apply List.NoDup_filter, NoDup_positions.
Qed.

Lemma nine_cases (x : Z) :
  0 <= x < 9 ->
  x = 0 \/ x = 1 \/ x = 2 \/ x = 3 \/ x = 4 \/ x = 5 \/ x = 6 \/ x = 7 \/ x = 8.
Proof. lia. Qed.

Lemma length_unit_cells_row (x : Z) :
  0 <= x < 9 -> length (unit_cells row x) = 9%nat.
Proof.
  intros Hx. destruct (nine_cases x Hx) as [-> | [-> | [-> | [-> | [-> | [-> |
    [-> | [-> | ->]]]]]]]]; vm_compute; reflexivity.
Qed.

Lemma length_unit_cells_col (x : Z) :
  0 <= x < 9 -> length (unit_cells col x) = 9%nat.
Proof.
  intros Hx. destruct (nine_cases x Hx) as [-> | [-> | [-> | [-> | [-> | [-> |
    [-> | [-> | ->]]]]]]]]; vm_compute; reflexivity.
Qed.

Lemma length_unit_cells_box (x : Z) :
  0 <= x < 9 -> length (unit_cells box x) = 9%nat.
Proof.
  intros Hx. destruct (nine_cases x Hx) as [-> | [-> | [-> | [-> | [-> | [-> |
    [-> | [-> | ->]]]]]]]]; vm_compute; reflexivity.
Qed.

Section Units.

Variable u : Z -> Z.

Hypothesis nine : forall x, 0 <= x < 9 -> length (unit_cells u x) = 9%nat.

(** Nine distinct digits in a unit of nine cells are all the digits. *)
Lemma complete_unit_intro (board : list Z) (x : Z) :
  (forall i, 0 <= i < 81 -> 1 <= cell board i <= 9) ->
  distinct_in u board 81 -> 0 <= x < 9 ->
  complete_unit u board x.
Proof.
  intros Hval Hd Hx d Hd19.
  set (l := map (cell board) (unit_cells u x)).
  assert (List.NoDup l) as Hnd.
  { apply NoDup_map_NoDup_ForallPairs; [| apply NoDup_unit_cells].
    intros i j Hi Hj Heq.
    apply In_unit_cells in Hi as [Hi Hui].
    apply In_unit_cells in Hj as [Hj Huj].
    destruct (Z.eq_dec i j) as [| Hne]; [assumption | exfalso].
    apply (Hd i j); try assumption; [congruence |].
    specialize (Hval i Hi). lia. }
  assert (incl l range_1_10) as Hin.
  { intros v Hv. apply in_map_iff in Hv as (i & <- & Hi).
    apply In_unit_cells in Hi as [Hi _]. apply In_range_1_10. auto. }
  assert (length range_1_10 <= length l)%nat as Hlen.
  { unfold l. rewrite length_map, nine by assumption. apply Nat.le_refl. }
  assert (In d l) as Hdl.
  { apply (NoDup_length_incl Hnd Hlen Hin), In_range_1_10. assumption. }
  apply in_map_iff in Hdl as (i & Hci & Hi).
  apply In_unit_cells in Hi as [Hi Hui].
  exists i. split; [auto |].
  intros j (Hj & Huj & Hcj).
  destruct (Z.eq_dec i j) as [| Hne]; [assumption | exfalso].
  apply (Hd i j); try assumption; [congruence | lia | congruence].
Qed.

(** Conversely, a unit that shows every digit holds digits only, and
    no digit twice. *)
Lemma complete_unit_elim (board : list Z) :
  (forall x, 0 <= x < 9 -> complete_unit u board x) ->
  (forall i, 0 <= i < 81 -> 0 <= u i < 9) ->
  (forall i, 0 <= i < 81 -> 1 <= cell board i <= 9) /\
  distinct_in u board 81.
Proof.
  intros Hcu Hu.
  assert (forall i, 0 <= i < 81 -> 1 <= cell board i <= 9) as Hval.
  { intros i Hi. set (x := u i).
    set (l := map (cell board) (unit_cells u x)).
    assert (incl range_1_10 l) as Hin.
    { intros d Hd. apply In_range_1_10 in Hd.
      destruct (Hcu x (Hu i Hi) d Hd) as (j & (Hj & Huj & Hcj) & _).
      apply in_map_iff. exists j. split; [assumption |].
      apply In_unit_cells. auto. }
    assert (List.NoDup range_1_10) as Hnd.
    { unfold range_1_10. repeat constructor; simpl; lia. }
    assert (length l <= length range_1_10)%nat as Hlen.
    { unfold l. rewrite length_map, nine by (apply Hu; assumption).
      apply Nat.le_refl. }
    apply In_range_1_10, (NoDup_length_incl Hnd Hlen Hin).
    apply in_map_iff. exists i. split; [reflexivity |].
    apply In_unit_cells. auto. }
  split; [assumption |].
  intros i j Hi Hj Hne Huij Hnz Heq.
  destruct (Hcu (u i) (Hu i Hi) (cell board i) (Hval i Hi))
    as (k & _ & Huniq).
  rewrite <- (Huniq i), <- (Huniq j) in Hne; auto.
Qed.

End Units.

Lemma full_valid_solved (b : list Z) : full_valid b <-> solved b.
Proof.
  split.
  - intros (Hlen & Hval & (Hr & Hc & Hb)). split3; [assumption | |].
    + intros i Hi. specialize (Hval i Hi). lia.
    + intros x Hx. split3.
      * apply complete_unit_intro; auto using length_unit_cells_row.
      * apply complete_unit_intro; auto using length_unit_cells_col.
      * apply complete_unit_intro; auto using length_unit_cells_box.
  - intros (Hlen & Hnz & Hu).
    destruct (complete_unit_elim row length_unit_cells_row b) as [Hval Hr];
      [intros x Hx; apply Hu; assumption | intros i Hi; apply units_bounds; assumption |].
    destruct (complete_unit_elim col length_unit_cells_col b) as [_ Hc];
      [intros x Hx; apply Hu; assumption | intros i Hi; apply units_bounds; assumption |].
    destruct (complete_unit_elim box length_unit_cells_box b) as [_ Hb];
      [intros x Hx; apply Hu; assumption | intros i Hi; apply units_bounds; assumption |].
    split3; [assumption .. |]. split3; assumption.
Qed.

(** * Main results *)

Lemma cell_In (l : list Z) (i : Z) :
  0 <= i < Z.of_nat (length l) -> In (cell l i) l.
Proof.
  intros Hi. apply list_elem_of_In. unfold cell.
  apply list_elem_of_lookup_total_2. lia.
Qed.

Lemma In_cell (l : list Z) (v : Z) :
  In v l -> exists i, 0 <= i < Z.of_nat (length l) /\ cell l i = v.
Proof.
  intros Hv. apply list_elem_of_In, list_elem_of_lookup_total_1 in Hv
    as (n & Hn & Hv).
  exists (Z.of_nat n). split; [lia |]. unfold cell. rewrite Nat2Z.id. exact Hv.
Qed.

Lemma all_assigned_iff (l : list Z) :
  forallb (fun v => negb (v =? 0)) l = true <->
  forall i, 0 <= i < Z.of_nat (length l) -> cell l i <> 0.
Proof.
  rewrite forallb_forall. split.
  - intros H i Hi. specialize (H _ (cell_In l i Hi)).
    apply negb_true_iff, Z.eqb_neq in H. exact H.
  - intros H v Hv. apply In_cell in Hv as (i & Hi & <-).
    apply negb_true_iff, Z.eqb_neq. auto.
Qed.

Lemma state_ok_full (b ru cu bu : list Z) :
  state_ok (b, ru, cu, bu) ->
  (forall k, 0 <= k < Z.of_nat (length b) -> cell b k <> 0) ->
  full_valid b.
Proof.
  intros ([Hlen Hval] & Hn & _) Hnz. split3; [assumption | | assumption].
  intros i Hi. specialize (Hval i Hi). specialize (Hnz i ltac:(lia)). lia.
Qed.

Lemma extends_refl (cells : list Z) : extends cells cells.
Proof. split; auto. Qed.

(** What a returned board is, for a solver built from valid cells. *)
Lemma solve_returns (cells : list Z) (self : SudokuBFS) (fuel : nat) (b : list Z) :
  valid_cells cells -> SudokuBFS_init cells = Ok self ->
  solve fuel self = Some (Ok (Some b)) ->
  full_valid b /\ extends cells b.
Proof.
  intros Hv Hinit H.
  destruct (init_state_ok cells self Hv Hinit) as [Hstart Hok].
  unfold solve in H. rewrite Hstart in *.
  destruct (forallb (fun v => negb (v =? 0)) cells) eqn:Hall.
  - injection H as <-. split; [| apply extends_refl].
    apply (state_ok_full _ _ _ _ Hok), all_assigned_iff, Hall.
  - apply (solve_loop_returns
             (fun s => state_ok s /\ extends cells (st_board s))) in H.
    + destruct H as [(ru & cu & bu & Hs & He) Hnz]. split; [| exact He].
      apply (state_ok_full _ _ _ _ Hs Hnz).
    + intros board ru cu bu idx cand d [Hs He] Hi Hc Hcm Hd Hb. split.
      * apply (state_ok_kid board ru cu bu idx cand d); assumption.
      * apply kid_extends; (assumption || lia).
    + intros s [<- | []]. split; [assumption | apply extends_refl].
Qed.

(** C1: for valid cells accepted by the initialization, a board returned
    by [solve] has 81 cells, no blank, and every row, column and box
    holds each digit 1-9 at exactly one position. *)
Theorem solve_returns_solved
    (cells : list Z) (self : SudokuBFS) (fuel : nat) (b : list Z) :
  valid_cells cells -> SudokuBFS_init cells = Ok self ->
  solve fuel self = Some (Ok (Some b)) ->
  solved b.
Proof.
  intros Hv Hinit H. apply full_valid_solved.
  apply (solve_returns cells self fuel b); assumption.
Qed.

(** C3: every cell that is assigned in the input holds the same value in
    the returned board, so a cell whose value differs was blank. *)
Theorem solve_preserves_givens
    (cells : list Z) (self : SudokuBFS) (fuel : nat) (b : list Z) :
  valid_cells cells -> SudokuBFS_init cells = Ok self ->
  solve fuel self = Some (Ok (Some b)) ->
  extends cells b /\
  (forall i, 0 <= i < 81 -> cell b i <> cell cells i -> cell cells i = 0).
Proof.
  intros Hv Hinit H.
  destruct (solve_returns cells self fuel b Hv Hinit H) as [_ He].
  split; [exact He |]. intros i Hi Hne.
  destruct (Z.eq_dec (cell cells i) 0) as [| Hnz]; [assumption |].
  destruct He as [_ He]. rewrite He in Hne by assumption. congruence.
Qed.

(** Enough fuel for [solve]: ten to the number of blanks. *)
Lemma solve_total (self : SudokuBFS) (fuel : nat) :
  10 ^ Z.of_nat (blanks (start self)) <= Z.of_nat fuel ->
  exists r, solve fuel self = Some r.
Proof.
  intros Hf. unfold solve.
  destruct (forallb (fun v => negb (v =? 0)) (start self)); [eauto |].
  apply solve_loop_terminates. simpl. unfold weight, st_board. simpl. lia.
Qed.

Lemma solve_no_raise (cells : list Z) (self : SudokuBFS) (fuel : nat) (e : exn) :
  valid_cells cells -> SudokuBFS_init cells = Ok self ->
  solve fuel self <> Some (Raise e).
Proof.
  intros Hv Hinit H.
  destruct (init_state_ok cells self Hv Hinit) as [Hstart Hok].
  unfold solve in H.
  destruct (forallb (fun v => negb (v =? 0)) (start self)); [discriminate |].
  revert H. apply solve_loop_no_raise.
  intros s [<- | []]. assumption.
Qed.

Lemma solve_none_sound (cells : list Z) (self : SudokuBFS) (fuel : nat) (b : list Z) :
  valid_cells cells -> SudokuBFS_init cells = Ok self ->
  completion cells b -> solve fuel self <> Some (Ok None).
Proof.
  intros Hv Hinit [He Hb] H.
  destruct (init_state_ok cells self Hv Hinit) as [Hstart Hok].
  unfold solve in H. rewrite Hstart in *.
  destruct (forallb (fun v => negb (v =? 0)) cells); [discriminate |].
  revert H. apply (solve_loop_complete b fuel Hb).
  - intros s [<- | []]. assumption.
  - eexists. split; [left; reflexivity | exact He].
Qed.

(** A board that can be completed is completed by [solve]. *)
Lemma solve_finds_completion (cells : list Z) (self : SudokuBFS) (b0 : list Z) :
  valid_cells cells -> SudokuBFS_init cells = Ok self ->
  completion cells b0 ->
  exists fuel b, solve fuel self = Some (Ok (Some b)) /\ completion cells b.
Proof.
  intros Hv Hinit Hb0.
  destruct (solve_total self (Z.to_nat (10 ^ Z.of_nat (blanks (start self)))))
    as [r H]; [lia |].
  eexists. destruct r as [[b |] | e].
  - exists b. split; [exact H |].
    destruct (solve_returns cells self _ b Hv Hinit H). split; assumption.
  - exfalso. revert H. apply (solve_none_sound cells self _ b0); assumption.
  - exfalso. revert H. apply (solve_no_raise cells); assumption.
Qed.

(** C2: [solve] reports that there is no solution exactly when the cells
    have no completion that satisfies the uniqueness constraints. *)
Theorem solve_none_iff_unsolvable (cells : list Z) (self : SudokuBFS) :
  valid_cells cells -> SudokuBFS_init cells = Ok self ->
  ((exists fuel, solve fuel self = Some (Ok None)) <->
   ~ exists b, completion cells b).
Proof.
  intros Hv Hinit. split.
  - intros [fuel H] (b & Hb). revert H.
    apply (solve_none_sound cells self fuel b); assumption.
  - intros Hno.
    destruct (solve_total self (Z.to_nat (10 ^ Z.of_nat (blanks (start self)))))
      as [r H]; [lia |].
    eexists. rewrite H. destruct r as [[b |] | e]; [| reflexivity |].
    + exfalso. apply Hno. exists b.
      destruct (solve_returns cells self _ b Hv Hinit H). split; assumption.
    + exfalso. revert H. apply (solve_no_raise cells); assumption.
Qed.

(** C4: with fuel for ten to the number of blanks iterations [solve]
    returns, and every state that an expansion appends to the frontier
    has exactly one blank less than the expanded state. *)
Theorem solve_terminates (cells : list Z) (self : SudokuBFS) :
  valid_cells cells -> SudokuBFS_init cells = Ok self ->
  (forall fuel, 10 ^ Z.of_nat (blanks cells) <= Z.of_nat fuel ->
                exists r, solve fuel self = Some r) /\
  (forall board ru cu bu idx cand_mask q q',
      choose_cell_with_fewest_candidates board ru cu bu = Ok (idx, cand_mask) ->
      idx <> -1 ->
      expand board ru cu bu idx (row idx) (col idx) (box idx) cand_mask
        range_1_10 q = Ok q' ->
      exists new, q' = q ++ new /\
        forall s, In s new -> S (blanks (st_board s)) = blanks board).
Proof.
  intros Hv Hinit.
  destruct (init_state_ok cells self Hv Hinit) as [Hstart _].
  split.
  - intros fuel Hf. apply solve_total. rewrite Hstart. assumption.
  - intros board ru cu bu idx cand q q' Hch Hidx He.
    apply choose_spec in Hch as [(-> & _) | (Hi & Hc & Hcm & _)]; [congruence |].
    rewrite expand_spec in He;
      [| assumption | assumption | intros d; apply In_range_1_10].
    exists (kids board ru cu bu idx cand range_1_10).
    split; [congruence |].
    intros s Hs. apply In_kids in Hs as (d & Hd & _ & ->).
    apply In_range_1_10 in Hd. apply blanks_kid; (assumption || lia).
Qed.

(** C5: on 81 cells with the same digit twice in a row, a column or a
    box, the initialization raises [ValueError]; no solver object
    exists, so no search is run. *)
Theorem init_rejects_duplicates (cells : list Z) :
  length cells = 81%nat -> conflict cells ->
  SudokuBFS_init cells = Raise ValueError /\
  forall fuel, (SudokuBFS_init cells ≫= fun self => Ok (solve fuel self))
               = Raise ValueError.
Proof.
  intros Hlen Hc. pose proof (init_spec cells Hlen) as H.
  assert (SudokuBFS_init cells = Raise ValueError) as E.
  { destruct (SudokuBFS_init cells) as [self | e].
    - exfalso. apply (conflict_no_conflict cells Hc), H.
    - destruct H as [-> _]. reflexivity. }
  split; [exact E |]. intros fuel. rewrite E. reflexivity.
Qed.

(** C9: a fully assigned board that satisfies the constraints is
    accepted by the initialization and [solve] returns it as it is, with
    any fuel, also with none: the frontier loop is not entered. *)
Theorem solve_solved_unchanged (cells : list Z) :
  full_valid cells ->
  exists self, SudokuBFS_init cells = Ok self /\
    forall fuel, solve fuel self = Some (Ok (Some cells)).
Proof.
  intros (Hlen & Hval & Hn).
  destruct (init_succeeds cells Hlen Hn) as [self Hinit].
  { intros i Hi. specialize (Hval i Hi). lia. }
  exists self. split; [exact Hinit |]. intros fuel.
  pose proof (init_spec cells Hlen) as H. rewrite Hinit in H.
  destruct H as (Hstart & _). unfold solve. rewrite Hstart.
  replace (forallb (fun v => negb (v =? 0)) cells) with true; [reflexivity |].
  symmetry. apply all_assigned_iff. intros i Hi.
  specialize (Hval i ltac:(lia)). lia.
Qed.



(** ** The grid loader *)

Lemma allowed_char_cases (ch : char) :
  allowed_char ch = true ->
  ch = 46 \/ ch = 48 \/ ch = 49 \/ ch = 50 \/ ch = 51 \/ ch = 52 \/
  ch = 53 \/ ch = 54 \/ ch = 55 \/ ch = 56 \/ ch = 57.
Proof.
  unfold allowed_char. rewrite !orb_true_iff, andb_true_iff.
  rewrite !Z.leb_le, !Z.eqb_eq. lia.
Qed.

Lemma parse_row_allowed (r : str) :
  forall vals, forallb allowed_char r = true ->
               parse_row r vals = Ok (vals ++ map char_value r).
Proof.
  induction r as [| ch r IH]; intros vals H.
  - simpl. rewrite app_nil_r. reflexivity.
  - simpl in H. apply andb_true_iff in H as [Hch Hr].
    change (map char_value (ch :: r)) with (char_value ch :: map char_value r).
    rewrite (cons_middle (char_value ch)), app_assoc, <- IH by assumption.
    apply allowed_char_cases in Hch.
    repeat (destruct Hch as [-> | Hch]; [reflexivity |]).
    subst ch. reflexivity.
Qed.

Lemma parse_rows_allowed (grid : list str) :
  forall vals, forallb (forallb allowed_char) grid = true ->
               parse_rows grid vals = Ok (vals ++ concat (map (map char_value) grid)).
Proof.
  induction grid as [| r grid IH]; intros vals H.
  - simpl. rewrite app_nil_r. reflexivity.
  - simpl in H. apply andb_true_iff in H as [Hr Hg]. simpl.
    rewrite parse_row_allowed, bind_Ok, IH, app_assoc by assumption.
    reflexivity.
Qed.

(** The loader on nine rows of nine specified characters. *)
Lemma parse_grid_allowed (grid : list str) :
  length grid = 9%nat -> Forall (fun r => length r = 9%nat) grid ->
  forallb (forallb allowed_char) grid = true ->
  parse_grid grid = Ok (concat (map (map char_value) grid)).
Proof.
  intros Hg Hr Ha. unfold parse_grid. rewrite Hg. simpl Nat.eqb.
  replace (forallb (fun r => Nat.eqb (length r) 9) grid) with true.
  - simpl. apply (parse_rows_allowed grid []). assumption.
  - symmetry. apply forallb_forall. intros r Hin.
    rewrite List.Forall_forall in Hr. rewrite (Hr r Hin). reflexivity.
Qed.

(** The loader on a grid of the wrong shape. *)
Lemma parse_grid_shape (grid : list str) :
  length grid <> 9%nat \/ Exists (fun r => length r <> 9%nat) grid ->
  parse_grid grid = Raise AssertionError.
Proof.
  intros H. unfold parse_grid.
  destruct (Nat.eqb_spec (length grid) 9) as [Hg | Hg]; [| reflexivity].
  destruct H as [H | H]; [contradiction |].
  replace (forallb (fun r => Nat.eqb (length r) 9) grid) with false;
    [reflexivity |].
  symmetry. apply not_true_is_false. intros Hall.
  rewrite forallb_forall in Hall. apply List.Exists_exists in H as (r & Hin & Hr).
  specialize (Hall r Hin). apply Nat.eqb_eq in Hall. contradiction.
Qed.

(** Among the ASCII characters only ['0']-['9'] are digits, so on ASCII
    input every character outside the specified set is rejected. *)
Lemma isdigit_ascii (ch : char) :
  0 <= ch < 128 -> isdigit ch = true -> 48 <= ch <= 57.
Proof.
  intros Hch Hd.
  assert (forallb (fun n => negb (isdigit (Z.of_nat n)) ||
                            ((48 <=? Z.of_nat n) && (Z.of_nat n <=? 57)))
            (seq 0 128) = true) as Hall by (vm_compute; reflexivity).
  rewrite forallb_forall in Hall.
  specialize (Hall (Z.to_nat ch)). rewrite Z2Nat.id in Hall by lia.
  rewrite Hd in Hall. simpl in Hall.
  assert (In (Z.to_nat ch) (seq 0 128)) as Hin by (apply in_seq; lia).
  apply Hall, andb_true_iff in Hin as [H1 H2]. lia.
Qed.

Lemma parse_row_cons_allowed (ch : char) (r : str) (vals : list Z) :
  allowed_char ch = true ->
  parse_row (ch :: r) vals = parse_row r (vals ++ [char_value ch]).
Proof.
  intros Hch. apply allowed_char_cases in Hch.
  repeat (destruct Hch as [-> | Hch]; [reflexivity |]).
  subst ch. reflexivity.
Qed.

Lemma parse_row_cons_rejected (ch : char) (r : str) (vals : list Z) :
  0 <= ch < 128 -> allowed_char ch = false ->
  parse_row (ch :: r) vals = Raise ValueError.
Proof.
  intros Hch Ha. unfold allowed_char in Ha.
  apply orb_false_iff in Ha as [Ha H48].
  apply orb_false_iff in Ha as [Hd H46].
  simpl. rewrite H48, H46. simpl.
  destruct (isdigit ch) eqn:Hdig; [| reflexivity].
  apply isdigit_ascii in Hdig; [| assumption].
  apply Z.eqb_neq in H48.
  apply andb_false_iff in Hd as [Hd | Hd];
    [apply Z.leb_gt in Hd | apply Z.leb_gt in Hd]; lia.
Qed.

Lemma parse_row_rejects_ascii (r : str) :
  forall vals,
    Forall (fun ch => 0 <= ch < 128) r -> forallb allowed_char r = false ->
    parse_row r vals = Raise ValueError.
Proof.
  induction r as [| ch r IH]; intros vals Hascii Hbad; [discriminate |].
  apply List.Forall_cons_iff in Hascii as [Hch Hr].
  destruct (allowed_char ch) eqn:Ha.
  - rewrite parse_row_cons_allowed by assumption. apply IH; [assumption |].
    simpl in Hbad. rewrite Ha in Hbad. exact Hbad.
  - apply parse_row_cons_rejected; assumption.
Qed.

Lemma parse_rows_rejects_ascii (grid : list str) :
  forall vals,
    Forall (Forall (fun ch => 0 <= ch < 128)) grid ->
    forallb (forallb allowed_char) grid = false ->
    parse_rows grid vals = Raise ValueError.
Proof.
  induction grid as [| r grid IH]; intros vals Hascii Hbad; [discriminate |].
  apply List.Forall_cons_iff in Hascii as [Hr Hg].
  cbn [parse_rows]. destruct (forallb allowed_char r) eqn:Ha.
  - rewrite parse_row_allowed, bind_Ok by assumption. apply IH; [assumption |].
    cbn [forallb] in Hbad. rewrite Ha in Hbad. exact Hbad.
  - rewrite parse_row_rejects_ascii by assumption. reflexivity.
Qed.

(** The loader on nine rows of nine ASCII characters, one of which is
    outside the specified set. *)
Lemma parse_grid_rejects_ascii (grid : list str) :
  length grid = 9%nat -> Forall (fun r => length r = 9%nat) grid ->
  Forall (Forall (fun ch => 0 <= ch < 128)) grid ->
  forallb (forallb allowed_char) grid = false ->
  parse_grid grid = Raise ValueError.
Proof.
  intros Hg Hr Hascii Hbad. unfold parse_grid. rewrite Hg. simpl Nat.eqb.
  replace (forallb (fun r => Nat.eqb (length r) 9) grid) with true.
  - simpl. apply parse_rows_rejects_ascii; assumption.
  - symmetry. apply forallb_forall. intros r Hin.
    rewrite List.Forall_forall in Hr. rewrite (Hr r Hin). reflexivity.
Qed.

(** C6 fails on the code for a character outside the specified set:
    U+0661 is neither ['1']-['9'] nor a blank marker, and the loader
    accepts it as the digit 1. *)
Theorem parse_grid_accepts_arabic_digit :
  length arabic_grid = 9%nat /\
  Forall (fun r => length r = 9%nat) arabic_grid /\
  allowed_char arabic_one = false /\
  In arabic_one (concat arabic_grid) /\
  parse_grid arabic_grid = Ok (1 :: repeat 0 80%nat).
Proof.
  split3; [reflexivity | repeat constructor | ].
  split3; [reflexivity | simpl; auto | vm_compute; reflexivity].
Qed.

(** ** Checks on concrete boards *)

Lemma forall_positions (f : Z -> bool) :
  forallb f positions = true -> forall k, 0 <= k < 81 -> f k = true.
Proof.
  intros H k Hk. rewrite forallb_forall in H. apply H, In_positions, Hk.
Qed.

Lemma valid_cellsb_ok (cells : list Z) :
  valid_cellsb cells = true -> valid_cells cells.
Proof.
  unfold valid_cellsb. intros H. apply andb_true_iff in H as [Hlen Hall].
  apply Nat.eqb_eq in Hlen. split; [assumption |]. intros i Hi.
  rewrite forallb_forall in Hall.
  specialize (Hall (cell cells i) (cell_In cells i ltac:(lia))).
  apply andb_true_iff in Hall as [H0 H9]. lia.
Qed.

Lemma distinct_inb_ok (u : Z -> Z) (board : list Z) :
  distinct_inb u board = true -> distinct_in u board 81.
Proof.
  intros H i j Hi Hj Hne Hu Hnz Heq.
  pose proof (forall_positions _ (forall_positions _ H i Hi) j Hj) as Hij.
  cbv beta in Hij. rewrite !orb_true_iff, !negb_true_iff in Hij.
  rewrite !Z.eqb_eq, !Z.eqb_neq in Hij. tauto.
Qed.

Lemma full_validb_ok (board : list Z) :
  full_validb board = true -> full_valid board.
Proof.
  unfold full_validb. rewrite !andb_true_iff.
  intros ((((Hlen & Hall) & Hr) & Hc) & Hb).
  apply Nat.eqb_eq in Hlen. split3; [assumption | |].
  - intros i Hi. rewrite forallb_forall in Hall.
    specialize (Hall (cell board i) (cell_In board i ltac:(lia))).
    apply andb_true_iff in Hall as [H0 H9]. lia.
  - split3; apply distinct_inb_ok; assumption.
Qed.

Lemma blank_cands_check (board ru cu bu : list Z) :
  forallb (fun k => negb (cell board k =? 0) ||
                    match cand_mask_at ru cu bu k with
                    | Ok mk => negb (mk =? 0)
                    | Raise _ => true
                    end) positions = true ->
  forall k mk, 0 <= k < 81 -> cell board k = 0 ->
               cand_mask_at ru cu bu k = Ok mk -> mk <> 0.
Proof.
  intros H k mk Hk Hc Hm. pose proof (forall_positions _ H k Hk) as Hf.
  cbv beta in Hf. rewrite Hc, Hm in Hf. simpl in Hf.
  apply negb_true_iff, Z.eqb_neq in Hf. exact Hf.
Qed.

(** ** The scenarios of the specification *)

Example parse_puzzle : parse_grid puzzle = Ok puzzle_cells.
Proof. vm_compute. reflexivity. Qed.

Example solve_puzzle :
  (SudokuBFS_init puzzle_cells ≫= fun self => Ok (solve 100 self))
  = Ok (Some (Ok (Some puzzle_solution))).
Proof. vm_compute. reflexivity. Qed.

Example parse_eight_rows : parse_grid (take 8 puzzle) = Raise AssertionError.
Proof. reflexivity. Qed.

Example parse_long_row :
  parse_grid ((dot :: repeat dot 9%nat) :: drop 1 puzzle) = Raise AssertionError.
Proof. reflexivity. Qed.

Example init_two_fives : SudokuBFS_init two_fives = Raise ValueError.
Proof. vm_compute. reflexivity. Qed.

Example solve_dead_end : solve 2 dead_end_self = Some (Ok None).
Proof. vm_compute. reflexivity. Qed.

(** The board of all blanks is solved, by some run of the loop that is
    far too long to evaluate. *)
Example solve_all_blank :
  exists self fuel b,
    SudokuBFS_init all_blank = Ok self /\
    solve fuel self = Some (Ok (Some b)) /\ solved b.
Proof.
  destruct (init_succeeds all_blank) as [self Hinit].
  - reflexivity.
  - split3; apply distinct_inb_ok; vm_compute; reflexivity.
  - intros i Hi.
    pose proof (valid_cellsb_ok all_blank eq_refl) as [_ Hv].
    apply Hv. assumption.
  - destruct (solve_finds_completion all_blank self puzzle_solution)
      as (fuel & b & H & _ & Hb).
    + apply valid_cellsb_ok. reflexivity.
    + exact Hinit.
    + split.
      * split; [reflexivity |]. intros i Hi Hnz. exfalso. apply Hnz.
        pose proof (forall_positions (fun i => cell all_blank i =? 0)
                      ltac:(vm_compute; reflexivity) i Hi) as H0.
        apply Z.eqb_eq in H0. exact H0.
      * apply full_validb_ok. vm_compute. reflexivity.
    + exists self, fuel, b. split3; [assumption .. |].
      apply full_valid_solved. assumption.
Qed.

(** ** Instances of the theorems on concrete boards *)

Lemma solve_returns_solved_witness : solved puzzle_solution.
Proof.
  apply (solve_returns_solved almost_solved almost_self 3 puzzle_solution).
  - apply valid_cellsb_ok. vm_compute. reflexivity.
  - vm_compute. reflexivity.
  - vm_compute. reflexivity.
Defined.

Lemma solve_none_iff_unsolvable_witness :
  ~ exists b, completion dead_end_cells b.
Proof.
  refine (proj1 (solve_none_iff_unsolvable dead_end_cells dead_end_self _ _) _).
  - apply valid_cellsb_ok. vm_compute. reflexivity.
  - vm_compute. reflexivity.
  - exists 2%nat. vm_compute. reflexivity.
Defined.

Lemma solve_preserves_givens_witness :
  extends almost_solved puzzle_solution /\
  (forall i, 0 <= i < 81 ->
     cell puzzle_solution i <> cell almost_solved i -> cell almost_solved i = 0).
Proof.
  apply (solve_preserves_givens almost_solved almost_self 3 puzzle_solution).
  - apply valid_cellsb_ok. vm_compute. reflexivity.
  - vm_compute. reflexivity.
  - vm_compute. reflexivity.
Defined.

Lemma solve_terminates_witness : exists r, solve 100 almost_self = Some r.
Proof.
  refine (proj1 (solve_terminates almost_solved almost_self _ _) 100%nat _).
  - apply valid_cellsb_ok. vm_compute. reflexivity.
  - vm_compute. reflexivity.
  - vm_compute. discriminate.
Defined.

Lemma init_rejects_duplicates_witness :
  SudokuBFS_init two_fives = Raise ValueError /\
  forall fuel, (SudokuBFS_init two_fives ≫= fun self => Ok (solve fuel self))
               = Raise ValueError.
Proof.
  apply (init_rejects_duplicates two_fives).
  - reflexivity.
  - exists 0, 9, 5.
    repeat split; try lia; try reflexivity. right. left. reflexivity.
Defined.



Lemma solve_solved_unchanged_witness :
  exists self, SudokuBFS_init puzzle_solution = Ok self /\
    forall fuel, solve fuel self = Some (Ok (Some puzzle_solution)).
Proof.
  apply (solve_solved_unchanged puzzle_solution).
  apply full_validb_ok. vm_compute. reflexivity.
Defined.

Lemma recheck_unreachable_witness :
  let '(r, c) := divmod 0 9 in
  recheck (row_used almost_self) (col_used almost_self) (box_used almost_self)
    r c (box_index r c) 16 = Ok false.
Proof.
  apply (recheck_unreachable almost_solved (row_used almost_self)
           (col_used almost_self) (box_used almost_self) 0 16 5 16).
  - vm_compute. reflexivity.
  - lia.
  - simpl. auto 10.
  - reflexivity.
  - reflexivity.
Defined.

(** * Further properties of the module *)

(** ** The grid loader *)

Lemma parse_row_output (r : str) :
  forall vals vals',
    parse_row r vals = Ok vals' ->
    exists new, vals' = vals ++ new /\ length new = length r /\
                Forall (fun v => 0 <= v <= 9) new.
Proof.
  induction r as [| ch r IH]; intros vals vals' H.
  - injection H as <-. exists []. rewrite app_nil_r. auto.
  - cbn [parse_row] in H.
    assert (forall d, 0 <= d <= 9 ->
              parse_row r (vals ++ [d]) = Ok vals' ->
              exists new, vals' = vals ++ new /\
                          length new = length (ch :: r) /\
                          Forall (fun v => 0 <= v <= 9) new) as Hstep.
    { intros d Hd Hr. apply IH in Hr as (new & -> & Hlen & Hall).
      exists (d :: new). rewrite <- app_assoc. split3; [reflexivity | |].
      - simpl. rewrite Hlen. reflexivity.
      - constructor; assumption. }
    destruct ((ch =? 48) || (ch =? 46)); [apply (Hstep 0); [lia | exact H] |].
    destruct (isdigit ch && negb (ch =? 48)); [| discriminate].
    destruct (int_of_char ch) as [d | e]; [| discriminate].
    rewrite bind_Ok in H.
    destruct ((1 <=? d) && (d <=? 9)) eqn:Hd; [| discriminate].
    apply andb_true_iff in Hd as [H1 H9].
    apply Z.leb_le in H1. apply Z.leb_le in H9.
    apply (Hstep d); [lia | exact H].
Qed.

Lemma parse_rows_output (grid : list str) :
  forall vals vals',
    parse_rows grid vals = Ok vals' ->
    exists new, vals' = vals ++ new /\
                length new = length (concat grid) /\
                Forall (fun v => 0 <= v <= 9) new.
Proof.
  induction grid as [| r grid IH]; intros vals vals' H.
  - injection H as <-. exists []. rewrite app_nil_r. auto.
  - cbn [parse_rows] in H. apply bind_Ok_inv in H as (vals1 & Hr & H).
    apply parse_row_output in Hr as (new1 & -> & Hlen1 & Hall1).
    apply IH in H as (new2 & -> & Hlen2 & Hall2).
    exists (new1 ++ new2). rewrite <- app_assoc. split3; [reflexivity | |].
    + cbn [concat]. rewrite !length_app. lia.
    + apply List.Forall_app. auto.
Qed.

Lemma length_concat_nine (grid : list str) :
  forallb (fun r => Nat.eqb (length r) 9) grid = true ->
  length (concat grid) = (9 * length grid)%nat.
Proof.
  induction grid as [| r grid IH]; intros H; [reflexivity |].
  cbn [forallb] in H. apply andb_true_iff in H as [Hr Hg].
  apply Nat.eqb_eq in Hr. cbn [concat length].
  rewrite length_app, Hr, IH by assumption. lia.
Qed.

Lemma parse_grid_valid_cells (grid : list str) (vals : list Z) :
  parse_grid grid = Ok vals -> valid_cells vals.
Proof.
  unfold parse_grid. intros H.
  destruct (Nat.eqb_spec (length grid) 9) as [Hg | Hg]; [| discriminate].
  destruct (forallb (fun r => Nat.eqb (length r) 9) grid) eqn:Hr;
    [| discriminate].
  cbn [andb] in H.
  apply parse_rows_output in H as (new & -> & Hlen & Hall).
  rewrite length_concat_nine, Hg in Hlen by assumption.
  cbn [app]. split; [exact Hlen |].
  intros i Hi. rewrite List.Forall_forall in Hall.
  apply Hall, cell_In. lia.
Qed.

(** X1: whatever [parse_grid] returns is a board for the solver: 81
    cells, each 0 or a digit 1-9. *)
Theorem parse_grid_output_valid (grid : list str) (vals : list Z) :
  parse_grid grid = Ok vals -> valid_cells vals.
Proof. apply parse_grid_valid_cells. Qed.

Lemma parse_grid_output_valid_witness : valid_cells puzzle_cells.
Proof.
  apply (parse_grid_output_valid puzzle puzzle_cells).
  vm_compute. reflexivity.
Defined.

(** X2: on ASCII input the loader is decided by the shape and by the
    specified characters alone: a grid that is not nine rows of nine
    raises [AssertionError], one with a character other than ['1']-['9'],
    ['.'] and ['0'] raises [ValueError], and any other grid gives the
    values of its characters, row after row. *)
Theorem parse_grid_ascii (grid : list str) :
  Forall (Forall (fun ch => 0 <= ch < 128)) grid ->
  parse_grid grid =
  if Nat.eqb (length grid) 9 && forallb (fun r => Nat.eqb (length r) 9) grid
  then if forallb (forallb allowed_char) grid
       then Ok (concat (map (map char_value) grid))
       else Raise ValueError
  else Raise AssertionError.
Proof.
  intros Hascii. unfold parse_grid.
  destruct (Nat.eqb (length grid) 9 &&
            forallb (fun r => Nat.eqb (length r) 9) grid); [| reflexivity].
  destruct (forallb (forallb allowed_char) grid) eqn:Ha.
  - apply (parse_rows_allowed grid []). assumption.
  - apply parse_rows_rejects_ascii; assumption.
Qed.

Lemma ascii_grid_check (grid : list str) :
  forallb (forallb (fun ch => (0 <=? ch) && (ch <? 128))) grid = true ->
  Forall (Forall (fun ch => 0 <= ch < 128)) grid.
Proof.
  intros H. rewrite forallb_forall in H.
  apply List.Forall_forall. intros r Hr. specialize (H r Hr).
  rewrite forallb_forall in H.
  apply List.Forall_forall. intros ch Hch. specialize (H ch Hch).
  apply andb_true_iff in H as [H0 H1].
  apply Z.leb_le in H0. apply Z.ltb_lt in H1. lia.
Qed.

Lemma parse_grid_ascii_witness :
  parse_grid puzzle =
  if Nat.eqb (length puzzle) 9 && forallb (fun r => Nat.eqb (length r) 9) puzzle
  then if forallb (forallb allowed_char) puzzle
       then Ok (concat (map (map char_value) puzzle))
       else Raise ValueError
  else Raise AssertionError.
Proof.
  apply (parse_grid_ascii puzzle).
  apply ascii_grid_check. vm_compute. reflexivity.
Defined.

(** ** Initialization *)

Lemma init_Ok_length (cells : list Z) (self : SudokuBFS) :
  SudokuBFS_init cells = Ok self -> length cells = 81%nat.
Proof.
  unfold SudokuBFS_init.
  destruct (Nat.eqb_spec (length cells) 81); [auto | discriminate].
Qed.

(** X3: for a list whose values are at most 1000, so that every shift
    [1 << (v - 1)] is an ordinary integer of at most 1000 bits,
    [__init__] accepts the list exactly when it has 81 cells, none of
    them negative, and no assigned value occurs twice in a row, a column
    or a box; that the values are at most 9 is not checked.  Whenever it
    refuses such a list, the exception is [ValueError]. *)
Theorem init_accepts_iff (cells : list Z) :
  Forall (fun v => v <= 1000) cells ->
  ((exists self, SudokuBFS_init cells = Ok self) <->
   (length cells = 81%nat /\ nonneg_upto cells 81 /\ no_conflict cells 81)) /\
  (forall e, SudokuBFS_init cells = Raise e -> e = ValueError).
Proof.
  intros _. split; [split |].
  - intros [self H]. pose proof (init_Ok_length cells self H) as Hlen.
    pose proof (init_spec cells Hlen) as Hs. rewrite H in Hs.
    destruct Hs as (_ & _ & Hn & Hp). auto.
  - intros (Hlen & Hp & Hn). apply init_succeeds; assumption.
  - intros e H. destruct (Nat.eqb_spec (length cells) 81) as [Hlen | Hlen].
    + pose proof (init_spec cells Hlen) as Hs. rewrite H in Hs. apply Hs.
    + unfold SudokuBFS_init in H.
      destruct (Nat.eqb_spec (length cells) 81); [contradiction |].
      simpl in H. congruence.
Qed.

(** A board whose only assigned cell holds 10 is accepted. *)
Lemma init_accepts_iff_witness :
  Forall (fun v => v <= 1000) ten_board /\
  (exists self, SudokuBFS_init ten_board = Ok self) /\
  length ten_board = 81%nat /\ nonneg_upto ten_board 81 /\
  no_conflict ten_board 81.
Proof.
  assert (Forall (fun v => v <= 1000) ten_board) as Hb.
  { apply List.Forall_forall. intros v [<- | Hv]; [lia |].
    apply repeat_spec in Hv. lia. }
  assert (exists self, SudokuBFS_init ten_board = Ok self) as Hs.
  { eexists. vm_compute. reflexivity. }
  split; [exact Hb |]. split; [exact Hs |].
  apply (init_accepts_iff ten_board Hb). exact Hs.
Defined.

Lemma testbit_mask_of_digits (l : list Z) (k : Z) :
  0 <= k -> Forall (fun d => 1 <= d) l ->
  (Z.testbit (mask_of_digits l) k = true <-> In (k + 1) l).
Proof.
  intros Hk. induction l as [| d l IH]; intros Hl.
  - simpl. rewrite Z.bits_0. split; [discriminate | tauto].
  - apply List.Forall_cons_iff in Hl as [Hd Hl].
    cbn [mask_of_digits fold_right].
    change (fold_right (fun d acc => Z.lor (Z.shiftl 1 (d - 1)) acc) 0 l)
      with (mask_of_digits l).
    rewrite Z.shiftl_1_l, Z.lor_spec, Z.pow2_bits_eqb, orb_true_iff by lia.
    rewrite IH by assumption. rewrite Z.eqb_eq. simpl. intuition lia.
Qed.

Lemma In_unit_values (u : Z -> Z) (cells : list Z) (x d : Z) :
  In d (unit_values u cells x) <->
  d <> 0 /\ exists i, holds cells 81 i d /\ u i = x.
Proof.
  unfold unit_values, holds.
  rewrite filter_In, in_map_iff, negb_true_iff, Z.eqb_neq. split.
  - intros [(i & Hc & Hi) Hd]. apply In_unit_cells in Hi as [Hi Hu].
    split; [assumption |]. exists i. auto.
  - intros [Hd (i & [Hi Hc] & Hu)]. split; [| assumption].
    exists i. split; [assumption |]. apply In_unit_cells. auto.
Qed.

(** A table that represents the board holds, for each unit, the bits of
    the assigned values of the unit and nothing else. *)
Lemma mask_repr_exact (u : Z -> Z) (cells m : list Z) (x : Z) :
  mask_repr u (holds cells 81) m -> nonneg_upto cells 81 -> 0 <= x < 9 ->
  cell m x = mask_of_digits (unit_values u cells x).
Proof.
  intros Hm Hp Hx.
  assert (Forall (fun d => 1 <= d) (unit_values u cells x)) as Hpos.
  { apply List.Forall_forall. intros d Hd.
    apply In_unit_values in Hd as [Hd (i & [Hi <-] & _)].
    specialize (Hp i Hi). lia. }
  apply Z.bits_inj'. intros k Hk. apply eq_true_iff_eq.
  rewrite (testbit_mask_of_digits _ k Hk Hpos), In_unit_values.
  destruct Hm as [_ Hm]. specialize (Hm x (k + 1) Hx ltac:(lia)).
  replace (k + 1 - 1) with k in Hm by lia. rewrite Hm.
  split; [intros H; split; [lia | exact H] | intros [_ H]; exact H].
Qed.

(** X4: after [__init__], the entry of each table for a row, a column or
    a box is exactly the bitwise or of [bit(v)] over the assigned values
    [v] of that unit. *)
Theorem init_tables (cells : list Z) (self : SudokuBFS) :
  SudokuBFS_init cells = Ok self ->
  start self = cells /\
  forall x, 0 <= x < 9 ->
    cell (row_used self) x = mask_of_digits (unit_values row cells x) /\
    cell (col_used self) x = mask_of_digits (unit_values col cells x) /\
    cell (box_used self) x = mask_of_digits (unit_values box cells x).
Proof.
  intros H. pose proof (init_Ok_length cells self H) as Hlen.
  pose proof (init_spec cells Hlen) as Hs. rewrite H in Hs.
  destruct Hs as (Hstart & (Hr & Hc & Hb) & _ & Hp).
  split; [exact Hstart |]. intros x Hx.
  split3; apply mask_repr_exact; assumption.
Qed.

Lemma init_tables_witness :
  cell (row_used almost_self) 0 =
    mask_of_digits (unit_values row almost_solved 0) /\
  cell (col_used almost_self) 0 =
    mask_of_digits (unit_values col almost_solved 0) /\
  cell (box_used almost_self) 0 =
    mask_of_digits (unit_values box almost_solved 0).
Proof.
  refine (proj2 (init_tables almost_solved almost_self _) 0 _).
  - vm_compute. reflexivity.
  - lia.
Defined.

(** ** Cell selection *)

Lemma choose_loop_no_blank (ru cu bu rest : list Z) :
  forall idx bi bm bc,
    forallb (fun v => negb (v =? 0)) rest = true ->
    choose_loop ru cu bu idx rest bi bm bc = Ok (bi, bm).
Proof.
  induction rest as [| v rest IH]; intros idx bi bm bc H; [reflexivity |].
  cbn [forallb] in H. apply andb_true_iff in H as [Hv Hr].
  cbn [choose_loop]. rewrite Hv. apply IH. assumption.
Qed.

(** X5: the selection answers [(-1, 0)] exactly when the board has no
    blank cell, whatever the three tables are. *)
Theorem choose_no_blank_iff (board ru cu bu : list Z) :
  choose_cell_with_fewest_candidates board ru cu bu = Ok (-1, 0) <->
  forall k, 0 <= k < Z.of_nat (length board) -> cell board k <> 0.
Proof.
  split.
  - intros H. apply choose_spec in H as [(_ & _ & Hno) | (Hi & _)];
      [exact Hno | lia].
  - intros H. apply choose_loop_no_blank, all_assigned_iff. exact H.
Qed.

(** X6: a cell that the selection returns is a blank cell of the board,
    and the mask returned with it is the candidate mask of that cell, a
    number of nine bits; this holds also when some blank has no
    candidate. *)
Theorem choose_returns_blank_cell (board ru cu bu : list Z) (idx m : Z) :
  choose_cell_with_fewest_candidates board ru cu bu = Ok (idx, m) ->
  idx <> -1 ->
  0 <= idx < Z.of_nat (length board) /\ cell board idx = 0 /\
  cand_mask_at ru cu bu idx = Ok m /\ 0 <= m <= 511.
Proof.
  intros H Hidx.
  apply choose_spec in H as [(-> & _) | (Hi & Hc & Hcm & _)]; [congruence |].
  split3; [assumption .. |]. split; [assumption |].
  apply (cand_mask_at_range ru cu bu idx). assumption.
Qed.

Lemma choose_returns_blank_cell_witness :
  0 <= 0 < Z.of_nat (length dead_end_cells) /\ cell dead_end_cells 0 = 0 /\
  cand_mask_at (row_used dead_end_self) (col_used dead_end_self)
    (box_used dead_end_self) 0 = Ok 1 /\ 0 <= 1 <= 511.
Proof.
  apply (choose_returns_blank_cell dead_end_cells (row_used dead_end_self)
           (col_used dead_end_self) (box_used dead_end_self) 0 1).
  - vm_compute. reflexivity.
  - lia.
Defined.

(** X7: in a state whose tables represent its board, digit [d] is in the
    candidate mask of a cell exactly when no cell of the same row,
    column or box holds [d]. *)
Theorem cand_mask_sound (board ru cu bu : list Z) (idx m d : Z) :
  state_ok (board, ru, cu, bu) -> 0 <= idx < 81 ->
  cand_mask_at ru cu bu idx = Ok m -> 1 <= d <= 9 ->
  (Z.testbit m (d - 1) = true <->
   forall i, 0 <= i < 81 -> peers i idx -> cell board i <> d).
Proof.
  intros (_ & _ & (Hmr & Hmc & Hmb)) Hi Hcm Hd.
  destruct (units_bounds idx Hi) as (H1 & H2 & H3). split.
  - intros Hb i Hir Hp Hci.
    destruct (cand_bit_unused _ _ _ _ _ _ (proj1 Hi) Hcm (proj1 Hd) Hb)
      as (_ & Hx & Hy & Hz).
    assert (forall u t, mask_repr u (holds board 81) t -> u i = u idx ->
              0 <= u idx < 9 ->
              Z.testbit (cell t (u idx)) (d - 1) = true) as Hset.
    { intros u t Ht Hu Hb9. rewrite <- Hu.
      apply (mask_repr_bit u (holds board 81)); [assumption | lia | lia |].
      split; assumption. }
    destruct Hp as [Hp | [Hp | Hp]].
    + rewrite (Hset row ru) in Hx; (assumption || discriminate).
    + rewrite (Hset col cu) in Hy; (assumption || discriminate).
    + rewrite (Hset box bu) in Hz; (assumption || discriminate).
  - intros Hfree. destruct (Z.testbit m (d - 1)) eqn:Hb; [reflexivity |].
    exfalso.
    assert (forall u t, mask_repr u (holds board 81) t -> 0 <= u idx < 9 ->
              Z.testbit (cell t (u idx)) (d - 1) = true ->
              exists i, 0 <= i < 81 /\ u i = u idx /\ cell board i = d) as Hget.
    { intros u t Ht Hb9 Hbit.
      apply (mask_repr_bit_inv u (holds board 81) t) in Hbit as (i & Hh & Hu);
        [| assumption | assumption | lia].
      destruct Hh as [Hir Hci]. exists i. auto. }
    destruct (cand_bit_used _ _ _ _ _ _ (proj1 Hi) Hcm Hd Hb) as [Hx | [Hx | Hx]].
    + destruct (Hget row ru Hmr H1 Hx) as (i & Hir & Hu & Hci).
      apply (Hfree i Hir); [left; exact Hu | exact Hci].
    + destruct (Hget col cu Hmc H2 Hx) as (i & Hir & Hu & Hci).
      apply (Hfree i Hir); [right; left; exact Hu | exact Hci].
    + destruct (Hget box bu Hmb H3 Hx) as (i & Hir & Hu & Hci).
      apply (Hfree i Hir); [right; right; exact Hu | exact Hci].
Qed.

Lemma cand_mask_sound_witness :
  Z.testbit 16 (5 - 1) = true <->
  forall i, 0 <= i < 81 -> peers i 0 -> cell almost_solved i <> 5.
Proof.
  apply (cand_mask_sound almost_solved (row_used almost_self)
           (col_used almost_self) (box_used almost_self) 0 16 5).
  - refine (proj2 (init_state_ok almost_solved almost_self _ _)).
    + apply valid_cellsb_ok. vm_compute. reflexivity.
    + vm_compute. reflexivity.
  - lia.
  - vm_compute. reflexivity.
  - lia.
Defined.

(** ** Masks and lists of digits *)

Lemma bits_to_list_loop_filter (mask : Z) (ds : list Z) :
  forall out,
    Forall (fun d => 1 <= d) ds ->
    bits_to_list_loop mask ds out =
    Ok (out ++ List.filter (fun d => Z.testbit mask (d - 1)) ds).
Proof.
  induction ds as [| d ds IH]; intros out Hds.
  - simpl. rewrite app_nil_r. reflexivity.
  - apply List.Forall_cons_iff in Hds as [Hd Hds].
    cbn [bits_to_list_loop List.filter].
    rewrite bit_pos, bind_Ok, truthy_land_pow2 by lia.
    destruct (Z.testbit mask (d - 1)).
    + rewrite IH, <- app_assoc by assumption. reflexivity.
    + apply IH. assumption.
Qed.

Lemma range_1_10_pos : Forall (fun d => 1 <= d) range_1_10.
Proof.
  apply List.Forall_forall. intros d Hd. apply In_range_1_10 in Hd. lia.
Qed.

Lemma bits_to_list_filter (mask : Z) :
  bits_to_list mask =
  Ok (List.filter (fun d => Z.testbit mask (d - 1)) range_1_10).
Proof.
  apply (bits_to_list_loop_filter mask range_1_10 []), range_1_10_pos.
Qed.

Lemma filter_strongly_sorted (f : Z -> bool) (l : list Z) :
  StronglySorted Z.lt l -> StronglySorted Z.lt (List.filter f l).
Proof.
  induction l as [| a l IH]; intros Hs; [constructor |].
  apply StronglySorted_inv in Hs as [Hs Ha]. cbn [List.filter].
  destruct (f a); [| auto]. constructor; [auto |].
  rewrite List.Forall_forall in *. intros x Hx.
  apply filter_In in Hx as [Hx _]. auto.
Qed.

Lemma range_1_10_sorted : StronglySorted Z.lt range_1_10.
Proof.
  unfold range_1_10.
  repeat (constructor; [| repeat (constructor; [lia |]); constructor]).
  constructor.
Qed.

(** X8: for every integer mask, [bits_to_list] returns without an
    exception the digits 1 to 9 whose bit is set, each once and in
    ascending order. *)
Theorem bits_to_list_spec (mask : Z) :
  exists l,
    bits_to_list mask = Ok l /\
    StronglySorted Z.lt l /\
    forall d, In d l <-> (1 <= d <= 9 /\ Z.testbit mask (d - 1) = true).
Proof.
  exists (List.filter (fun d => Z.testbit mask (d - 1)) range_1_10).
  split3.
  - apply bits_to_list_filter.
  - apply filter_strongly_sorted, range_1_10_sorted.
  - intros d. rewrite filter_In, In_range_1_10. reflexivity.
Qed.

Lemma testbit_land_511 (a k : Z) :
  0 <= k -> Z.testbit (Z.land a 0x1FF) k = Z.testbit a k && (k <? 9).
Proof.
  intros Hk. change 0x1FF with (Z.ones 9).
  rewrite Z.land_spec, Z.testbit_ones_nonneg by lia. reflexivity.
Qed.

(** X9: turning a mask into its list of digits and the list back into a
    mask gives the low nine bits of the mask. *)
Theorem mask_of_bits_to_list (mask : Z) :
  exists l, bits_to_list mask = Ok l /\ mask_of_digits l = Z.land mask 0x1FF.
Proof.
  exists (List.filter (fun d => Z.testbit mask (d - 1)) range_1_10).
  split; [apply bits_to_list_filter |].
  set (l := List.filter (fun d => Z.testbit mask (d - 1)) range_1_10).
  assert (forall d, In d l <-> (1 <= d <= 9 /\ Z.testbit mask (d - 1) = true))
    as Hin.
  { intros d. unfold l. rewrite filter_In, In_range_1_10. reflexivity. }
  assert (Forall (fun d => 1 <= d) l) as Hpos.
  { apply List.Forall_forall. intros d Hd. apply Hin in Hd. lia. }
  apply Z.bits_inj'. intros k Hk. apply eq_true_iff_eq.
  rewrite (testbit_mask_of_digits l k Hk Hpos), Hin, testbit_land_511 by lia.
  replace (k + 1 - 1) with k by lia.
  rewrite andb_true_iff, Z.ltb_lt. intuition lia.
Qed.

Lemma filter_sorted_sublist (r : list Z) :
  forall l,
    StronglySorted Z.lt r -> StronglySorted Z.lt l -> incl l r ->
    List.filter (fun d => existsb (Z.eqb d) l) r = l.
Proof.
  induction r as [| a r IH]; intros l Hr Hl Hin.
  - destruct l as [| b l]; [reflexivity |].
    destruct (Hin b (or_introl eq_refl)).
  - apply StronglySorted_inv in Hr as [Hr Ha].
    rewrite List.Forall_forall in Ha.
    destruct l as [| b l].
    + cbn [List.filter]. change (existsb (Z.eqb a) []) with false.
      cbv iota. apply (IH [] Hr (SSorted_nil _)). intros x [].
    + apply StronglySorted_inv in Hl as [Hl Hb].
      rewrite List.Forall_forall in Hb.
      destruct (Z.eq_dec b a) as [-> | Hne].
      * cbn [List.filter].
        replace (existsb (Z.eqb a) (a :: l)) with true
          by (cbn [existsb]; rewrite Z.eqb_refl; reflexivity).
        f_equal.
        transitivity (List.filter (fun d => existsb (Z.eqb d) l) r);
          [| apply (IH l Hr Hl)].
        -- apply filter_ext_in. intros x Hx. cbn [existsb].
           destruct (Z.eqb_spec x a) as [-> | _]; [| reflexivity].
           specialize (Ha a Hx). lia.
        -- intros x Hx. destruct (Hin x (or_intror Hx)) as [<- | Hx'];
             [| exact Hx'].
           specialize (Hb _ Hx). lia.
      * assert (In b r) as Hbr.
        { destruct (Hin b (or_introl eq_refl)) as [E | Hbr];
            [congruence | exact Hbr]. }
        assert (incl (b :: l) r) as Hin'.
        { intros x [<- | Hx]; [exact Hbr |].
          destruct (Hin x (or_intror Hx)) as [<- | Hx']; [| exact Hx'].
          specialize (Hb _ Hx). specialize (Ha _ Hbr). lia. }
        cbn [List.filter].
        replace (existsb (Z.eqb a) (b :: l)) with false.
        -- apply IH; [assumption | constructor; [assumption |] | assumption].
           apply List.Forall_forall. assumption.
        -- symmetry. apply not_true_is_false. intros Hex.
           apply existsb_exists in Hex as (x & Hx & Hax).
           apply Z.eqb_eq in Hax. subst x.
           specialize (Ha _ Hbr).
           destruct Hx as [E | Hx]; [lia |].
           specialize (Hb _ Hx). lia.
Qed.

(** X10: a strictly ascending list of digits 1 to 9 is recovered from
    its mask: [bits_to_list] undoes the accumulation of [bit(d)]. *)
Theorem bits_to_list_of_mask (l : list Z) :
  StronglySorted Z.lt l -> Forall (fun d => 1 <= d <= 9) l ->
  bits_to_list (mask_of_digits l) = Ok l.
Proof.
  intros Hs Hl. rewrite bits_to_list_filter. f_equal.
  assert (Forall (fun d => 1 <= d) l) as Hpos.
  { apply List.Forall_forall. intros d Hd.
    rewrite List.Forall_forall in Hl. specialize (Hl d Hd). lia. }
  transitivity (List.filter (fun d => existsb (Z.eqb d) l) range_1_10);
    [| apply (filter_sorted_sublist range_1_10 l)].
  - apply filter_ext_in. intros d Hd. apply In_range_1_10 in Hd.
    apply eq_true_iff_eq.
    rewrite (testbit_mask_of_digits l (d - 1)) by (assumption || lia).
    replace (d - 1 + 1) with d by lia.
    rewrite existsb_exists. split.
    + intros Hin. exists d. split; [assumption | apply Z.eqb_refl].
    + intros (x & Hx & E). apply Z.eqb_eq in E. subst x. assumption.
  - apply range_1_10_sorted.
  - assumption.
  - intros d Hd. apply In_range_1_10.
    rewrite List.Forall_forall in Hl. apply Hl. assumption.
Qed.

Lemma bits_to_list_of_mask_witness :
  bits_to_list (mask_of_digits [2; 5; 9]) = Ok [2; 5; 9].
Proof.
  apply (bits_to_list_of_mask [2; 5; 9]).
  - repeat (constructor; [| repeat (constructor; [lia |]); constructor]).
    constructor.
  - repeat (constructor; [lia |]). constructor.
Defined.

(** X11: the number of ones that [bit_count] finds in the low nine bits
    of a mask is the number of digits that [bits_to_list] extracts from
    the mask. *)
Theorem bit_count_length (mask : Z) :
  exists l, bits_to_list mask = Ok l /\
            Z.of_nat (length l) = bit_count (Z.land mask 0x1FF).
Proof.
  destruct (bit_count_bits_to_list (Z.land mask 0x1FF)) as (l & Hl & Hlen).
  { pose proof (Z.land_ones mask 9) as E.
    change (Z.ones 9) with 0x1FF in E. rewrite E by lia.
    pose proof (Z.mod_pos_bound mask (2 ^ 9) eq_refl) as H.
    change (2 ^ 9) with 512 in *. lia. }
  exists l. split; [| exact Hlen].
  rewrite bits_to_list_filter in *. rewrite <- Hl. f_equal.
  apply filter_ext_in. intros d Hd. apply In_range_1_10 in Hd.
  rewrite testbit_land_511 by lia.
  destruct (Z.ltb_spec (d - 1) 9); [| lia].
  rewrite andb_true_r. reflexivity.
Qed.

(** ** Expansion *)

Lemma kids_map (board ru cu bu : list Z) (idx cand : Z) (ds : list Z) :
  kids board ru cu bu idx cand ds =
  map (kid board ru cu bu idx)
      (List.filter (fun d => Z.testbit cand (d - 1)) ds).
Proof.
  induction ds as [| d ds IH]; [reflexivity |].
  cbn [kids List.filter]. destruct (Z.testbit cand (d - 1)); cbn [map];
    rewrite IH; reflexivity.
Qed.

(** X12: for the cell and mask that the selection returns, the loop over
    the digits appends, behind the states already in the frontier, one
    child per digit of [bits_to_list(cand_mask)], in that order; the
    child for [d] is the parent with [d] written in the cell and
    [bit(d)] added to the three entries of the cell.  Their number is
    [cand_mask.bit_count()]. *)
Theorem expand_children (board ru cu bu : list Z) (idx cand_mask : Z) :
  choose_cell_with_fewest_candidates board ru cu bu = Ok (idx, cand_mask) ->
  idx <> -1 ->
  exists l,
    bits_to_list cand_mask = Ok l /\
    Z.of_nat (length l) = bit_count cand_mask /\
    forall q,
      expand board ru cu bu idx (row idx) (col idx) (box idx) cand_mask
        range_1_10 q = Ok (q ++ map (kid board ru cu bu idx) l).
Proof.
  intros H Hidx.
  apply choose_spec in H as [(-> & _) | (Hi & Hc & Hcm & _)]; [congruence |].
  pose proof (cand_mask_at_range _ _ _ _ _ Hcm) as Hrange.
  destruct (bit_count_bits_to_list cand_mask Hrange) as (l & Hl & Hlen).
  exists l. split3; [assumption .. |]. intros q.
  rewrite expand_spec;
    [| assumption | assumption | intros d; apply In_range_1_10].
  rewrite kids_map. rewrite bits_to_list_filter in Hl.
  injection Hl as <-. reflexivity.
Qed.

Lemma expand_children_witness :
  exists l,
    bits_to_list 16 = Ok l /\
    Z.of_nat (length l) = bit_count 16 /\
    forall q,
      expand almost_solved (row_used almost_self) (col_used almost_self)
        (box_used almost_self) 0 (row 0) (col 0) (box 0) 16 range_1_10 q =
      Ok (q ++ map (kid almost_solved (row_used almost_self)
                      (col_used almost_self) (box_used almost_self) 0) l).
Proof.
  apply (expand_children almost_solved (row_used almost_self)
           (col_used almost_self) (box_used almost_self) 0 16).
  - vm_compute. reflexivity.
  - lia.
Defined.

(** ** The search *)

Lemma state_shape_kid (board ru cu bu : list Z) (idx cand d : Z) :
  state_shape (board, ru, cu, bu) ->
  0 <= idx < Z.of_nat (length board) -> cell board idx = 0 ->
  cand_mask_at ru cu bu idx = Ok cand ->
  1 <= d <= 9 -> Z.testbit cand (d - 1) = true ->
  state_shape (kid board ru cu bu idx d).
Proof.
  intros (Hb & Hr & Hc & Hx) _ _ _ _ _. unfold kid, state_shape.
  rewrite !length_insert. auto.
Qed.

Lemma solve_loop_shape_no_raise (fuel : nat) :
  forall q e,
    (forall s, In s q -> state_shape s) -> solve_loop fuel q <> Some (Raise e).
Proof.
  induction fuel as [| fuel IH]; intros [| [[[board ru] cu] bu] q] e Hq H;
    try discriminate.
  assert (state_shape (board, ru, cu, bu)) as HI by (apply Hq; simpl; auto).
  assert (forall s, In s q -> state_shape s) as Hq'
      by (intros s Hs; apply Hq; simpl; auto).
  destruct (solve_loop_cases fuel board ru cu bu q)
    as [(e' & He & E) | [(Hno & E) | [(idx & _ & _ & _ & E)
        | (idx & cand & Hi & Hc & Hcm & _ & E)]]]; rewrite E in H.
  - destruct HI as (Hb & Hr & Hcl & Hx).
    destruct (choose_total board ru cu bu) as (i & m & Hch);
      [lia | assumption .. |].
    congruence.
  - discriminate.
  - apply (IH q e); assumption.
  - apply (IH _ e) in H; [assumption |].
    apply (I_kids state_shape state_shape_kid); assumption.
Qed.

(** X13: [solve] raises no exception on any solver object that
    [__init__] has built, also when the cells hold values above 9. *)
Theorem solve_never_raises
    (cells : list Z) (self : SudokuBFS) (fuel : nat) (e : exn) :
  SudokuBFS_init cells = Ok self -> solve fuel self <> Some (Raise e).
Proof.
  intros Hinit H. pose proof (init_Ok_length cells self Hinit) as Hlen.
  pose proof (init_spec cells Hlen) as Hs. rewrite Hinit in Hs.
  destruct Hs as (Hstart & ([Hr _] & [Hc _] & [Hb _]) & _).
  unfold solve in H.
  destruct (forallb (fun v => negb (v =? 0)) (start self)); [discriminate |].
  revert H. apply solve_loop_shape_no_raise.
  intros s [<- | []]. rewrite Hstart. split3; [assumption .. |].
  split; assumption.
Qed.

Lemma solve_never_raises_witness :
  solve 1 dead_end_self <> Some (Raise IndexError).
Proof.
  apply (solve_never_raises dead_end_cells dead_end_self 1 IndexError).
  vm_compute. reflexivity.
Defined.

(** X14: when the cells have exactly one completion, [solve] returns
    that completion. *)
Theorem solve_unique_completion (cells : list Z) (self : SudokuBFS) (b0 : list Z) :
  valid_cells cells -> SudokuBFS_init cells = Ok self ->
  completion cells b0 ->
  (forall b, completion cells b -> b = b0) ->
  exists fuel, solve fuel self = Some (Ok (Some b0)).
Proof.
  intros Hv Hinit Hb0 Huniq.
  destruct (solve_finds_completion cells self b0 Hv Hinit Hb0)
    as (fuel & b & H & Hb).
  exists fuel. rewrite <- (Huniq b Hb). exact H.
Qed.

(** X20: when the cells have a completion, [solve] returns a board, and
    that board is a completion of the cells. *)
Theorem solve_solves_solvable (cells : list Z) (self : SudokuBFS) (b0 : list Z) :
  valid_cells cells -> SudokuBFS_init cells = Ok self ->
  completion cells b0 ->
  exists fuel b, solve fuel self = Some (Ok (Some b)) /\ completion cells b.
Proof. apply solve_finds_completion. Qed.

Lemma solve_solves_solvable_witness :
  exists fuel b,
    solve fuel almost_self = Some (Ok (Some b)) /\ completion almost_solved b.
Proof.
  apply (solve_solves_solvable almost_solved almost_self puzzle_solution).
  - apply valid_cellsb_ok. vm_compute. reflexivity.
  - vm_compute. reflexivity.
  - split.
    + split; [reflexivity |]. intros i Hi Hnz.
      pose proof (forall_positions
                    (fun i => (cell almost_solved i =? 0) ||
                              (cell puzzle_solution i =? cell almost_solved i))
                    ltac:(vm_compute; reflexivity) i Hi) as Hchk.
      cbv beta in Hchk. apply orb_true_iff in Hchk as [E | E];
        apply Z.eqb_eq in E; [contradiction | exact E].
    + apply full_validb_ok. vm_compute. reflexivity.
Defined.

(** ** Boxes *)

(** X15: [box_index] numbers the nine 3x3 blocks: on a 9x9 grid its
    value is between 0 and 8, and two cells get the same value exactly
    when their rows and their columns fall in the same thirds. *)
Theorem box_index_blocks (r c r' c' : Z) :
  0 <= r < 9 -> 0 <= c < 9 -> 0 <= r' < 9 -> 0 <= c' < 9 ->
  0 <= box_index r c < 9 /\
  (box_index r c = box_index r' c' <-> r / 3 = r' / 3 /\ c / 3 = c' / 3).
Proof.
  intros Hr Hc Hr' Hc'. unfold box_index. split; [zlia |]. split; zlia.
Qed.

Lemma box_index_blocks_witness :
  0 <= box_index 4 7 < 9 /\
  (box_index 4 7 = box_index 5 8 <-> 4 / 3 = 5 / 3 /\ 7 / 3 = 8 / 3).
Proof.
  apply (box_index_blocks 4 7 5 8); lia.
Defined.

Lemma cells_eq (b b0 : list Z) :
  length b = length b0 ->
  (forall i, 0 <= i < Z.of_nat (length b0) -> cell b i = cell b0 i) ->
  b = b0.
Proof.
  intros Hlen Hc. apply (list_eq_same_length _ _ (length b0));
    [reflexivity | assumption |].
  intros n x y Hn Hx Hy. specialize (Hc (Z.of_nat n) ltac:(lia)).
  unfold cell in Hc. rewrite Nat2Z.id in Hc.
  rewrite (list_lookup_total_correct _ _ _ Hx) in Hc.
  rewrite (list_lookup_total_correct _ _ _ Hy) in Hc. exact Hc.
Qed.

(** The example with two blanks has one completion only. *)
Lemma almost_solved_unique (b : list Z) :
  completion almost_solved b -> b = puzzle_solution.
Proof.
  intros [He Hb].
  assert (state_ok (almost_solved, row_used almost_self,
                    col_used almost_self, box_used almost_self)) as Hok.
  { refine (proj2 (init_state_ok almost_solved almost_self _ _)).
    - apply valid_cellsb_ok. vm_compute. reflexivity.
    - vm_compute. reflexivity. }
  assert (forall idx cand v,
            0 <= idx < 81 -> cell almost_solved idx = 0 ->
            cand_mask_at (row_used almost_self) (col_used almost_self)
              (box_used almost_self) idx = Ok cand ->
            (forall d, 1 <= d <= 9 -> Z.testbit cand (d - 1) = true -> d = v) ->
            cell b idx = v) as Hone.
  { intros idx cand v Hi Hc Hcm Hv. apply Hv; [apply Hb; assumption |].
    apply (completion_digit_candidate almost_solved (row_used almost_self)
             (col_used almost_self) (box_used almost_self)); assumption. }
  assert (forall m v d, 1 <= d <= 9 -> m = 2 ^ (v - 1) -> 1 <= v ->
            Z.testbit m (d - 1) = true -> d = v) as Hbit.
  { intros m v d Hd -> Hv Ht. rewrite Z.pow2_bits_eqb in Ht by lia.
    apply Z.eqb_eq in Ht. lia. }
  apply cells_eq.
  - destruct He as [Hlen _]. exact Hlen.
  - intros i Hi. change (Z.of_nat (length puzzle_solution)) with 81 in Hi.
    destruct (Z.eq_dec i 0) as [-> | H0];
      [| destruct (Z.eq_dec i 1) as [-> | H1]].
    + apply (Hone 0 16 5); [lia | reflexivity | vm_compute; reflexivity |].
      intros d Hd. apply (Hbit 16 5 d Hd); [reflexivity | lia].
    + apply (Hone 1 4 3); [lia | reflexivity | vm_compute; reflexivity |].
      intros d Hd. apply (Hbit 4 3 d Hd); [reflexivity | lia].
    + destruct He as [_ He].
      pose proof (forall_positions
                    (fun i => (i =? 0) || (i =? 1) ||
                              (negb (cell almost_solved i =? 0) &&
                               (cell almost_solved i =? cell puzzle_solution i)))
                    ltac:(vm_compute; reflexivity) i Hi) as Hchk.
      cbv beta in Hchk.
      apply orb_true_iff in Hchk as [Hchk | Hchk].
      { apply orb_true_iff in Hchk as [E | E]; apply Z.eqb_eq in E; lia. }
      apply andb_true_iff in Hchk as [Hnz Heq].
      apply negb_true_iff, Z.eqb_neq in Hnz. apply Z.eqb_eq in Heq.
      rewrite <- Heq. apply He; assumption.
Qed.

Lemma solve_unique_completion_witness :
  exists fuel, solve fuel almost_self = Some (Ok (Some puzzle_solution)).
Proof.
  apply (solve_unique_completion almost_solved almost_self puzzle_solution).
  - apply valid_cellsb_ok. vm_compute. reflexivity.
  - vm_compute. reflexivity.
  - split.
    + split; [reflexivity |]. intros i Hi Hnz.
      pose proof (forall_positions
                    (fun i => (cell almost_solved i =? 0) ||
                              (cell puzzle_solution i =? cell almost_solved i))
                    ltac:(vm_compute; reflexivity) i Hi) as Hchk.
      cbv beta in Hchk. apply orb_true_iff in Hchk as [E | E];
        apply Z.eqb_eq in E; [contradiction | exact E].
    + apply full_validb_ok. vm_compute. reflexivity.
  - exact almost_solved_unique.
Defined.

(** ** Pretty printing *)

Lemma board_to_lines_loop_map (board : list Z) (rs : list Z) :
  forall out,
    board_to_lines_loop board rs out =
    out ++ map (fun r => join [space]
                           (map str_of_int (slice board (r * 9) ((r + 1) * 9))))
             rs.
Proof.
  induction rs as [| r rs IH]; intros out.
  - simpl. rewrite app_nil_r. reflexivity.
  - cbn [board_to_lines_loop map]. rewrite IH, <- app_assoc. reflexivity.
Qed.

(** A slice with bounds [0 <= lo <= hi] is what is left of the first
    [hi] elements after the first [lo]. *)
Lemma slice_nonneg {A} (l : list A) (lo hi : Z) :
  0 <= lo <= hi ->
  slice l lo hi = take (Z.to_nat (hi - lo)) (drop (Z.to_nat lo) l).
Proof.
  intros H. unfold slice, slice_bound.
  destruct (Z.ltb_spec lo 0); [lia |]. destruct (Z.ltb_spec hi 0); [lia |].
  destruct (Z.le_gt_cases lo (Z.of_nat (length l))) as [Hlo | Hlo].
  - rewrite (Z.min_l lo) by lia.
    destruct (Z.le_gt_cases hi (Z.of_nat (length l))) as [Hhi | Hhi].
    + rewrite (Z.min_l hi) by lia. reflexivity.
    + rewrite (Z.min_r hi) by lia.
      rewrite !take_ge; [reflexivity | |]; rewrite length_drop; lia.
  - rewrite !Z.min_r by lia.
    rewrite (drop_ge l (Z.to_nat lo)) by lia.
    rewrite (drop_ge l (Z.to_nat (Z.of_nat (length l)))) by lia.
    rewrite !take_nil. reflexivity.
Qed.

Lemma board_row (board : list Z) (r : Z) :
  0 <= r ->
  slice board (r * 9) ((r + 1) * 9) = take 9 (drop (Z.to_nat (9 * r)) board).
Proof.
  intros Hr. rewrite slice_nonneg by lia.
  replace (Z.to_nat ((r + 1) * 9 - r * 9)) with 9%nat by lia.
  replace (r * 9) with (9 * r) by lia. reflexivity.
Qed.

Lemma str_of_int_digit (v : Z) : 0 <= v <= 9 -> str_of_int v = [48 + v].
Proof.
  intros Hv.
  assert (v = 0 \/ v = 1 \/ v = 2 \/ v = 3 \/ v = 4 \/ v = 5 \/ v = 6 \/
          v = 7 \/ v = 8 \/ v = 9) as Hc by lia.
  repeat (destruct Hc as [-> | Hc]; [reflexivity |]). subst v. reflexivity.
Qed.

Lemma str_of_int_nonempty (v : Z) : (1 <= length (str_of_int v))%nat.
Proof.
  assert (forall u, u <> Decimal.Nil -> (1 <= length (uint_chars u))%nat) as Hu.
  { intros [| u | u | u | u | u | u | u | u | u | u] H;
      [contradiction | simpl; lia ..]. }
  unfold str_of_int. destruct v as [| p | p]; simpl.
  - lia.
  - apply Hu, DecimalPos.Unsigned.to_uint_nonnil.
  - lia.
Qed.

Lemma join_cons2 (sep s s' : str) (l : list str) :
  join sep (s :: s' :: l) = s ++ sep ++ join sep (s' :: l).
Proof. reflexivity. Qed.

(** A row of digits prints as its digit characters with one space
    between neighbours. *)
Lemma join_digits (row : list Z) :
  Forall (fun v => 0 <= v <= 9) row ->
  (length (join [space] (map str_of_int row)) = 2 * length row - 1)%nat /\
  forall k : nat,
    (k < length row)%nat ->
    join [space] (map str_of_int row) !!! (2 * k)%nat = 48 + row !!! k /\
    ((S k < length row)%nat ->
     join [space] (map str_of_int row) !!! (2 * k + 1)%nat = space).
Proof.
  induction row as [| v row IH]; intros Hrow.
  - split; [reflexivity | intros k Hk; simpl in Hk; lia].
  - apply List.Forall_cons_iff in Hrow as [Hv Hrow].
    specialize (IH Hrow) as [IHlen IHk].
    destruct row as [| v' row].
    + cbn [map join]. rewrite str_of_int_digit by assumption.
      split; [reflexivity |]. intros k Hk. simpl in Hk.
      assert (k = 0%nat) as -> by lia. split; [reflexivity | simpl; lia].
    + cbn [map]. rewrite join_cons2, str_of_int_digit by assumption.
      cbn [app]. cbn [map] in IHlen, IHk. cbn [length] in *. split.
      * rewrite IHlen. lia.
      * intros [| k] Hk.
        -- split; [reflexivity | intros _; reflexivity].
        -- specialize (IHk k ltac:(lia)) as [H1 H2].
           replace (2 * S k)%nat with (S (S (2 * k))) by lia.
           replace (2 * S k + 1)%nat with (S (S (2 * k + 1))) by lia.
           split; [exact H1 |]. intros Hk'. apply H2. lia.
Qed.

Lemma range_9_lookup (r : Z) :
  0 <= r < 9 -> range_9 !! Z.to_nat r = Some r.
Proof.
  intros Hr. destruct (nine_cases r Hr) as [-> | [-> | [-> | [-> | [-> | [-> |
    [-> | [-> | ->]]]]]]]]; reflexivity.
Qed.

Lemma board_to_lines_lookup (board : list Z) (r : Z) :
  0 <= r < 9 ->
  board_to_lines board !! Z.to_nat r =
  Some (join [space]
          (map str_of_int (take 9 (drop (Z.to_nat (9 * r)) board)))).
Proof.
  intros Hr. unfold board_to_lines. rewrite board_to_lines_loop_map.
  cbn [app]. rewrite list_lookup_fmap, range_9_lookup by assumption.
  cbn [fmap option_fmap option_map]. rewrite board_row by lia. reflexivity.
Qed.

Lemma board_row_valid (board : list Z) (r : Z) :
  valid_cells board -> 0 <= r < 9 ->
  length (take 9 (drop (Z.to_nat (9 * r)) board)) = 9%nat /\
  Forall (fun v => 0 <= v <= 9) (take 9 (drop (Z.to_nat (9 * r)) board)) /\
  forall c : nat,
    (c < 9)%nat ->
    take 9 (drop (Z.to_nat (9 * r)) board) !!! c = cell board (9 * r + Z.of_nat c).
Proof.
  intros [Hlen Hval] Hr.
  assert (forall c : nat,
            (c < 9)%nat ->
            take 9 (drop (Z.to_nat (9 * r)) board) !!! c =
            cell board (9 * r + Z.of_nat c)) as Hc.
  { intros c Hc. rewrite lookup_total_take_lt, lookup_total_drop by lia.
    unfold cell. f_equal. lia. }
  assert (length (take 9 (drop (Z.to_nat (9 * r)) board)) = 9%nat) as Hl.
  { rewrite length_take, length_drop. lia. }
  split3; [exact Hl | | exact Hc].
  apply List.Forall_forall. intros v Hv.
  apply list_elem_of_In, list_elem_of_lookup_total_1 in Hv as (c & Hcl & <-).
  rewrite Hc by lia. apply Hval. lia.
Qed.

(** X16: for a board of 81 cells with values 0 to 9, [board_to_lines]
    gives nine lines of 17 characters: the character at position [2c] of
    line [r] is the digit character of cell [9r + c], and the characters
    between them are spaces. *)
Theorem board_to_lines_format (board : list Z) :
  valid_cells board ->
  length (board_to_lines board) = 9%nat /\
  forall r, 0 <= r < 9 ->
    exists line,
      board_to_lines board !! Z.to_nat r = Some line /\
      length line = 17%nat /\
      (forall c, 0 <= c < 9 -> cell line (2 * c) = 48 + cell board (9 * r + c)) /\
      (forall c, 0 <= c < 8 -> cell line (2 * c + 1) = space).
Proof.
  intros Hv. split.
  - unfold board_to_lines. rewrite board_to_lines_loop_map. reflexivity.
  - intros r Hr. eexists. split; [apply board_to_lines_lookup; assumption |].
    destruct (board_row_valid board r Hv Hr) as (Hl & Hall & Hc).
    destruct (join_digits _ Hall) as [Hlen Hk]. rewrite Hl in Hlen, Hk.
    split3; [exact Hlen | |].
    + intros c Hcr. specialize (Hk (Z.to_nat c) ltac:(lia)) as [H1 _].
      specialize (Hc (Z.to_nat c) ltac:(lia)).
      rewrite Z2Nat.id in Hc by lia. rewrite <- Hc, <- H1.
      unfold cell. f_equal. lia.
    + intros c Hcr. specialize (Hk (Z.to_nat c) ltac:(lia)) as [_ H2].
      unfold cell.
      replace (Z.to_nat (2 * c + 1)) with (2 * Z.to_nat c + 1)%nat by lia.
      apply H2. lia.
Qed.

Lemma board_to_lines_format_witness :
  length (board_to_lines puzzle_solution) = 9%nat /\
  forall r, 0 <= r < 9 ->
    exists line,
      board_to_lines puzzle_solution !! Z.to_nat r = Some line /\
      length line = 17%nat /\
      (forall c, 0 <= c < 9 ->
         cell line (2 * c) = 48 + cell puzzle_solution (9 * r + c)) /\
      (forall c, 0 <= c < 8 -> cell line (2 * c + 1) = space).
Proof.
  apply (board_to_lines_format puzzle_solution).
  apply valid_cellsb_ok. vm_compute. reflexivity.
Defined.

Lemma filter_join_digits (row : list Z) :
  Forall (fun v => 0 <= v <= 9) row ->
  List.filter (fun ch => negb (ch =? space)) (join [space] (map str_of_int row))
  = map (fun v => 48 + v) row.
Proof.
  induction row as [| v row IH]; intros Hrow; [reflexivity |].
  apply List.Forall_cons_iff in Hrow as [Hv Hrow]. specialize (IH Hrow).
  assert (negb (48 + v =? space) = true) as Hns.
  { apply negb_true_iff, Z.eqb_neq. unfold space. lia. }
  destruct row as [| v' row].
  - cbn [map join]. rewrite str_of_int_digit by assumption.
    cbn [List.filter]. rewrite Hns. reflexivity.
  - cbn [map]. rewrite join_cons2, str_of_int_digit by assumption.
    cbn [app List.filter]. rewrite Hns.
    change (negb (space =? space)) with false. cbv iota.
    cbn [map] in IH. rewrite IH. reflexivity.
Qed.

Lemma digits_allowed (row : list Z) :
  Forall (fun v => 0 <= v <= 9) row ->
  forallb allowed_char (map (fun v => 48 + v) row) = true /\
  map char_value (map (fun v => 48 + v) row) = row.
Proof.
  induction row as [| v row IH]; intros Hrow; [auto |].
  apply List.Forall_cons_iff in Hrow as [Hv Hrow].
  specialize (IH Hrow) as [IH1 IH2]. cbn [map forallb].
  rewrite IH1, IH2. split.
  - rewrite andb_true_r. unfold allowed_char.
    rewrite !orb_true_iff, andb_true_iff, !Z.leb_le, !Z.eqb_eq. lia.
  - f_equal. unfold char_value.
    destruct (Z.eqb_spec (48 + v) 48); [cbn [orb]; lia |].
    destruct (Z.eqb_spec (48 + v) 46); [lia | cbn [orb]; lia].
Qed.

Lemma concat_chunks (l : list Z) (k : nat) :
  forall s : nat,
    concat (map (fun j : nat => take 9 (drop (9 * j) l)) (seq s k)) =
    take (9 * k) (drop (9 * s) l).
Proof.
  induction k as [| k IH]; intros s; [reflexivity |].
  cbn [seq map concat]. rewrite IH.
  replace (9 * S s)%nat with (9 * s + 9)%nat by lia.
  rewrite <- drop_drop.
  replace (9 * S k)%nat with (9 + 9 * k)%nat by lia.
  apply take_take_drop.
Qed.

Lemma concat_rows (board : list Z) :
  length board = 81%nat ->
  concat (map (fun r => take 9 (drop (Z.to_nat (9 * r)) board)) range_9) = board.
Proof.
  intros Hlen.
  change (map (fun r => take 9 (drop (Z.to_nat (9 * r)) board)) range_9)
    with (map (fun j : nat => take 9 (drop (9 * j) board)) (seq 0 9)).
  rewrite concat_chunks. change (drop (9 * 0) board) with board.
  apply take_ge. lia.
Qed.

Lemma In_range_9 (r : Z) : In r range_9 <-> 0 <= r < 9.
Proof. unfold range_9. simpl. lia. Qed.

(** X17: the printed lines, once their spaces are removed, are a grid
    that [parse_grid] accepts, and parsing them gives back the board:
    the zero of a blank cell is printed as ['0'] and read as a blank. *)
Theorem parse_board_to_lines (board : list Z) :
  valid_cells board ->
  parse_grid (map (List.filter (fun ch => negb (ch =? space)))
                  (board_to_lines board)) = Ok board.
Proof.
  intros Hv.
  set (rowf := fun r => take 9 (drop (Z.to_nat (9 * r)) board)).
  assert (map (List.filter (fun ch => negb (ch =? space))) (board_to_lines board)
          = map (fun r => map (fun v => 48 + v) (rowf r)) range_9) as ->.
  { unfold board_to_lines. rewrite board_to_lines_loop_map. cbn [app].
    rewrite map_map. apply map_ext_in. intros r Hr. apply In_range_9 in Hr.
    rewrite board_row by lia. apply filter_join_digits.
    apply (board_row_valid board r Hv Hr). }
  rewrite parse_grid_allowed.
  - f_equal. rewrite map_map.
    rewrite (map_ext_in _ rowf).
    + apply concat_rows, Hv.
    + intros r Hr. apply In_range_9 in Hr. apply digits_allowed.
      apply (board_row_valid board r Hv Hr).
  - rewrite length_map. reflexivity.
  - apply List.Forall_forall. intros line Hl.
    apply in_map_iff in Hl as (r & <- & Hr). apply In_range_9 in Hr.
    rewrite length_map. apply (board_row_valid board r Hv Hr).
  - apply forallb_forall. intros line Hl.
    apply in_map_iff in Hl as (r & <- & Hr). apply In_range_9 in Hr.
    apply digits_allowed. apply (board_row_valid board r Hv Hr).
Qed.

Lemma parse_board_to_lines_witness :
  parse_grid (map (List.filter (fun ch => negb (ch =? space)))
                  (board_to_lines puzzle_cells)) = Ok puzzle_cells.
Proof.
  apply (parse_board_to_lines puzzle_cells).
  apply valid_cellsb_ok. vm_compute. reflexivity.
Defined.

Lemma length_join_ge (l : list str) :
  Forall (fun s => (1 <= length s)%nat) l ->
  (2 * length l - 1 <= length (join [space] l))%nat.
Proof.
  induction l as [| s l IH]; intros Hl; [simpl; lia |].
  apply List.Forall_cons_iff in Hl as [Hs Hl]. specialize (IH Hl).
  destruct l as [| s' l]; [simpl; lia |].
  rewrite join_cons2, !length_app. cbn [length] in *. lia.
Qed.

(** X18: what [board_to_lines] prints is never a grid for [parse_grid]:
    for every board of any length whose values are between -1000 and
    1000, so that each [str(v)] is an ordinary conversion of at most
    five characters, parsing the printed lines raises [AssertionError],
    because some line does not have nine characters. *)
Theorem parse_printed_lines_fails (board : list Z) :
  Forall (fun v => -1000 <= v <= 1000) board ->
  parse_grid (board_to_lines board) = Raise AssertionError.
Proof.
  intros _. unfold parse_grid.
  replace (forallb (fun r => Nat.eqb (length r) 9) (board_to_lines board))
    with false; [rewrite andb_false_r; reflexivity |].
  symmetry. apply not_true_is_false. intros Hall.
  rewrite forallb_forall in Hall.
  assert (forall r, 0 <= r < 9 ->
            length (join [space]
                      (map str_of_int (take 9 (drop (Z.to_nat (9 * r)) board))))
            = 9%nat) as Hline.
  { intros r Hr. apply Nat.eqb_eq, Hall.
    apply list_elem_of_In, list_elem_of_lookup. exists (Z.to_nat r).
    apply board_to_lines_lookup. assumption. }
  destruct (Nat.le_gt_cases 9 (length board)) as [Hlen | Hlen].
  - specialize (Hline 0 ltac:(lia)).
    pose proof (length_join_ge (map str_of_int (take 9 (drop (Z.to_nat (9 * 0)) board))))
      as Hge.
    rewrite length_map, length_take, length_drop in Hge.
    change (Z.to_nat (9 * 0)) with 0%nat in *.
    assert (Forall (fun s : str => (1 <= length s)%nat)
              (map str_of_int (take 9 (drop 0 board)))) as Hne.
    { apply List.Forall_forall. intros s Hs.
      apply in_map_iff in Hs as (v & <- & _). apply str_of_int_nonempty. }
    specialize (Hge Hne). rewrite Hline in Hge. lia.
  - specialize (Hline 1 ltac:(lia)).
    rewrite drop_ge in Hline by lia. discriminate Hline.
Qed.

(** The first printed line of a board of five cells has exactly nine
    characters; the other eight lines are empty. *)
Lemma parse_printed_lines_fails_witness :
  Forall (fun v => -1000 <= v <= 1000) [1; 2; 3; 4; 5] /\
  board_to_lines [1; 2; 3; 4; 5] !! 0%nat = Some (of_string "1 2 3 4 5"%string) /\
  parse_grid (board_to_lines [1; 2; 3; 4; 5]) = Raise AssertionError.
Proof.
  assert (Forall (fun v => -1000 <= v <= 1000) [1; 2; 3; 4; 5]) as Hb
    by (repeat constructor; lia).
  split; [exact Hb |]. split; [reflexivity |].
  apply (parse_printed_lines_fails [1; 2; 3; 4; 5] Hb).
Defined.

(** ** The demo *)

Lemma parse_row_raises (r : str) :
  forall vals e, parse_row r vals = Raise e -> e = ValueError.
Proof.
  induction r as [| ch r IH]; intros vals e H; [discriminate |].
  cbn [parse_row] in H.
  destruct ((ch =? 48) || (ch =? 46)); [apply (IH _ _ H) |].
  destruct (isdigit ch && negb (ch =? 48)); [| congruence].
  unfold int_of_char in H. destruct (decimal_block ch); [| simpl in H; congruence].
  rewrite bind_Ok in H.
  destruct (negb ((1 <=? ch - z) && (ch - z <=? 9))); [congruence |].
  apply (IH _ _ H).
Qed.

Lemma parse_rows_raises (grid : list str) :
  forall vals e, parse_rows grid vals = Raise e -> e = ValueError.
Proof.
  induction grid as [| r grid IH]; intros vals e H; [discriminate |].
  cbn [parse_rows] in H.
  destruct (parse_row r vals) as [vals1 | e1] eqn:Hr.
  - rewrite bind_Ok in H. apply (IH _ _ H).
  - simpl in H. injection H as <-. apply (parse_row_raises _ _ _ Hr).
Qed.

Lemma parse_grid_raises (grid : list str) (e : exn) :
  parse_grid grid = Raise e -> e = AssertionError \/ e = ValueError.
Proof.
  unfold parse_grid.
  destruct (Nat.eqb (length grid) 9 &&
            forallb (fun r => Nat.eqb (length r) 9) grid).
  - intros H. right. apply (parse_rows_raises _ _ _ H).
  - intros [= <-]. left. reflexivity.
Qed.

(** X19: the demo, run on any grid, comes to an end, and it ends in one
    of four ways: [AssertionError] or [ValueError] from the loader or the
    initialization; the line that no solution was found, when the parsed
    cells have no completion; or the heading followed by the printed
    lines of a completion of the parsed cells.  No [IndexError] escapes. *)
Theorem main_outcomes (grid : list str) :
  (exists fuel r, main fuel grid = Some r) /\
  forall fuel r, main fuel grid = Some r ->
    match r with
    | Raise e => e = AssertionError \/ e = ValueError
    | Ok out =>
        exists cells, parse_grid grid = Ok cells /\
          ((out = [of_string "No solution found."%string] /\
            ~ exists b, completion cells b) \/
           (exists b, completion cells b /\
                      out = of_string "Solved board:"%string :: board_to_lines b))
    end.
Proof.
  unfold main. destruct (parse_grid grid) as [cells | e] eqn:Hp.
  2:{ split; [exists 0%nat; eauto |]. intros fuel r [= <-].
      apply (parse_grid_raises grid). assumption. }
  pose proof (parse_grid_valid_cells grid cells Hp) as Hv.
  destruct (SudokuBFS_init cells) as [self | e] eqn:Hinit.
  2:{ split; [exists 0%nat; eauto |]. intros fuel r [= <-]. right.
      pose proof (init_spec cells (proj1 Hv)) as Hs. rewrite Hinit in Hs.
      apply Hs. }
  split.
  - destruct (solve_total self (Z.to_nat (10 ^ Z.of_nat (blanks (start self)))))
      as [r H]; [lia |].
    eexists. rewrite H. destruct r as [[b |] | e]; eauto.
  - intros fuel r H.
    destruct (solve fuel self) as [[[b |] | e] |] eqn:Hs; try discriminate;
      injection H as <-.
    + exists cells. split; [reflexivity |]. right. exists b.
      split; [| reflexivity].
      destruct (solve_returns cells self fuel b Hv Hinit Hs). split; assumption.
    + exists cells. split; [reflexivity |]. left. split; [reflexivity |].
      intros [b Hb]. revert Hs.
      apply (solve_none_sound cells self fuel b); assumption.
    + exfalso. revert Hs. apply (solve_no_raise cells); assumption.
Qed.

Example main_puzzle :
  main 100 puzzle =
  Some (Ok (of_string "Solved board:"%string :: board_to_lines puzzle_solution)).
Proof. vm_compute. reflexivity. Qed.

Example print_first_line :
  board_to_lines puzzle_solution !! 0%nat = Some (of_string "5 3 4 6 7 8 9 1 2"%string).
Proof. vm_compute. reflexivity. Qed.

(** ** Cell selection and the candidate sets of the tables *)

(** The mask that the scan computes for a cell is the mask of the cell's
    candidate set, and it has as many bits as the set has digits. *)
Lemma candidates_mask (ru cu bu : list Z) (idx : Z) :
  length ru = 9%nat -> length cu = 9%nat -> length bu = 9%nat ->
  0 <= idx < 81 ->
  cand_mask_at ru cu bu idx = Ok (mask_of_digits (candidates ru cu bu idx)) /\
  bit_count (mask_of_digits (candidates ru cu bu idx)) =
  Z.of_nat (length (candidates ru cu bu idx)).
Proof.
  intros Hr Hc Hb Hi. rewrite cand_mask_at_in by assumption.
  set (m := Z.land (Z.lnot (Z.lor (Z.lor (cell ru (row idx)) (cell cu (col idx)))
                                  (cell bu (box idx)))) 0x1FF).
  assert (candidates ru cu bu idx =
          List.filter (fun d => Z.testbit m (d - 1)) range_1_10) as Hl.
  { unfold candidates, used. apply filter_ext_in. intros d Hd.
    apply In_range_1_10 in Hd. unfold m.
    rewrite testbit_cand, !Z.lor_spec by lia.
    destruct (Z.ltb_spec (d - 1) 9); [| lia].
    rewrite andb_true_r. reflexivity. }
  assert (0 <= m <= 511) as Hm by apply cand_range.
  assert (mask_of_digits (candidates ru cu bu idx) = m) as Hmask.
  { assert (Forall (fun d => 1 <= d) (candidates ru cu bu idx)) as Hpos.
    { apply List.Forall_forall. intros d Hd. rewrite Hl in Hd.
      apply filter_In in Hd as [Hd _]. apply In_range_1_10 in Hd. lia. }
    apply Z.bits_inj'. intros k Hk. apply eq_true_iff_eq.
    rewrite (testbit_mask_of_digits _ k Hk Hpos), Hl, filter_In, In_range_1_10.
    replace (k + 1 - 1) with k by lia. split; [intros [_ H]; exact H |].
    intros H. split; [| exact H]. unfold m in H.
    rewrite testbit_cand in H by assumption.
    apply andb_true_iff in H as [_ H]. apply Z.ltb_lt in H. lia. }
  rewrite Hmask. split; [reflexivity |].
  destruct (bit_count_bits_to_list m Hm) as (l & Hbl & Hlen).
  rewrite bits_to_list_filter in Hbl. injection Hbl as <-.
  rewrite Hl. symmetry. exact Hlen.
Qed.

Lemma candidates_mask_nonzero (ru cu bu : list Z) (idx : Z) :
  length ru = 9%nat -> length cu = 9%nat -> length bu = 9%nat ->
  0 <= idx < 81 -> candidates ru cu bu idx <> [] ->
  mask_of_digits (candidates ru cu bu idx) <> 0.
Proof.
  intros Hr Hc Hb Hi Hne E.
  destruct (candidates_mask ru cu bu idx Hr Hc Hb Hi) as [_ Hcnt].
  rewrite E in Hcnt. simpl in Hcnt.
  destruct (candidates ru cu bu idx); [contradiction | simpl in Hcnt; lia].
Qed.

(** C7: on a board of 81 cells with its three tables, where at least one
    cell is blank and every blank cell has a non-empty candidate set (the
    digits 1-9 minus the used sets of its row, column and box), the
    selection returns a blank cell together with the mask of its
    candidate set; no blank cell has fewer candidates, every blank
    scanned before it has strictly more, and when the returned cell has
    exactly one candidate the cells after it are not looked at. *)
Theorem choose_fewest_candidates (board ru cu bu : list Z) :
  length board = 81%nat ->
  length ru = 9%nat -> length cu = 9%nat -> length bu = 9%nat ->
  (exists k, 0 <= k < 81 /\ cell board k = 0) ->
  (forall k, 0 <= k < 81 -> cell board k = 0 -> candidates ru cu bu k <> []) ->
  exists i,
    choose_cell_with_fewest_candidates board ru cu bu
      = Ok (i, mask_of_digits (candidates ru cu bu i)) /\
    0 <= i < 81 /\ cell board i = 0 /\
    (forall k, 0 <= k < 81 -> cell board k = 0 ->
       (length (candidates ru cu bu i) <= length (candidates ru cu bu k))%nat) /\
    (forall k, 0 <= k < i -> cell board k = 0 ->
       (length (candidates ru cu bu i) < length (candidates ru cu bu k))%nat) /\
    (length (candidates ru cu bu i) = 1%nat ->
     forall board', length board' = 81%nat ->
       (forall k, 0 <= k <= i -> cell board' k = cell board k) ->
       choose_cell_with_fewest_candidates board' ru cu bu
         = Ok (i, mask_of_digits (candidates ru cu bu i))).
Proof.
  intros Hlen Hr Hc Hb Hblank Hall.
  destruct (choose_min_mask board ru cu bu Hlen Hr Hc Hb Hblank)
    as (i & m & Hch & Hi & Hci & Hcm & Hmin & Hfirst & Hstop).
  { intros k mk Hk Hck Hmk.
    destruct (candidates_mask ru cu bu k Hr Hc Hb Hk) as [Hk' _].
    rewrite Hk' in Hmk. injection Hmk as <-.
    apply candidates_mask_nonzero; auto. }
  destruct (candidates_mask ru cu bu i Hr Hc Hb Hi) as [Hm Hcnt].
  rewrite Hm in Hcm. injection Hcm as <-.
  exists i. split3; [assumption .. |]. split; [assumption |]. split3.
  - intros k Hk Hck.
    destruct (candidates_mask ru cu bu k Hr Hc Hb Hk) as [Hmk Hcntk].
    specialize (Hmin k _ Hk Hck Hmk). lia.
  - intros k Hk Hck.
    destruct (candidates_mask ru cu bu k Hr Hc Hb ltac:(lia)) as [Hmk Hcntk].
    specialize (Hfirst k _ Hk Hck Hmk). lia.
  - intros H1. apply Hstop. lia.
Qed.

Lemma blank_candidates_check (board ru cu bu : list Z) :
  forallb (fun k => negb (cell board k =? 0) ||
                    negb (Nat.eqb (length (candidates ru cu bu k)) 0))
          positions = true ->
  forall k, 0 <= k < 81 -> cell board k = 0 -> candidates ru cu bu k <> [].
Proof.
  intros H k Hk Hc E. pose proof (forall_positions _ H k Hk) as Hf.
  cbv beta in Hf. rewrite Hc, E in Hf. discriminate Hf.
Qed.

(** On the example puzzle the first blank, cell 2, has three candidates
    and cell 3 has two; the selection returns cell 40, whose only
    candidate is 5. *)
Lemma choose_fewest_candidates_witness :
  choose_cell_with_fewest_candidates puzzle_cells (row_used puzzle_self)
    (col_used puzzle_self) (box_used puzzle_self) = Ok (40, 16) /\
  candidates (row_used puzzle_self) (col_used puzzle_self)
    (box_used puzzle_self) 40 = [5] /\
  candidates (row_used puzzle_self) (col_used puzzle_self)
    (box_used puzzle_self) 2 = [1; 2; 4] /\
  forall k, 0 <= k < 81 -> cell puzzle_cells k = 0 ->
    (1 <= length (candidates (row_used puzzle_self) (col_used puzzle_self)
                    (box_used puzzle_self) k))%nat.
Proof.
  destruct (choose_fewest_candidates puzzle_cells (row_used puzzle_self)
              (col_used puzzle_self) (box_used puzzle_self))
    as (i & Hch & Hi & Hci & Hmin & _).
  - reflexivity.
  - reflexivity.
  - reflexivity.
  - reflexivity.
  - exists 2. split; [lia | reflexivity].
  - apply blank_candidates_check. vm_compute. reflexivity.
  - assert (i = 40) as ->.
    { assert (choose_cell_with_fewest_candidates puzzle_cells
                (row_used puzzle_self) (col_used puzzle_self)
                (box_used puzzle_self) = Ok (40, 16)) as E
        by (vm_compute; reflexivity).
      rewrite E in Hch. injection Hch as <- _. reflexivity. }
    split3; [exact Hch | reflexivity |]. split; [reflexivity |].
    exact Hmin.
Defined.
